(** * CentralLimitThm: the numeric core of [src/app/page.tsx]

    The page computes binomial probabilities, a normal approximation and
    the data series that overlays both.  This development embeds the
    numeric functions of [src/app/page.tsx] (lines 21-142) and the state
    logic of the page component, and proves the properties stated about
    them.

    ** Number models

    A TypeScript [number] is a binary64 value.  Two embeddings are used.

    - [number]: an extended real, a finite real or one of [NaN],
      [+Infinity], [-Infinity].  The special values follow the IEEE 754
      rules the source relies on (1/0 is [+Infinity], 0/0 and
      [Infinity * 0] are [NaN], every comparison with [NaN] is false).
      Finite arithmetic is exact: rounding, overflow, underflow and the
      sign of zero are not modelled.  Statements over [number] are chosen
      so that they do not depend on how a finite result is rounded: they
      follow the control flow, equate results of the same computation, or
      leave room for rounding.  Every function of the source is embedded
      over [number].

    - [B64.f64]: binary64 itself, through the IEEE 754 operations of
      [SpecFloat] at precision 53 and maximal exponent 1024 (round to
      nearest, ties to even).  The functions built from [+ - * /] alone
      ([binomialCoefficient], and [binomialPMF], [binomialSum] with
      [Math.pow] as a parameter, since its result is implementation
      defined) are embedded a second time over it; this is where rounding
      and overflow are observed.

    Numbers that the source uses as integers (the trial count [n], the
    index [k], loop counters, results of [Math.floor]) are [Z]; this is
    exact below 2^53, the range in which a binary64 counter can be
    incremented by one. *)

From Stdlib Require Import Reals Lra Lia ZArith List Bool.
From Stdlib Require Import Floats.SpecFloat.
Import ListNotations.

Open Scope R_scope.

(** ** Numbers *)

Inductive number : Type :=
| NaN
| PInf
| NInf
| Num (r : R).

Declare Scope js_scope.
Delimit Scope js_scope with js.
Bind Scope js_scope with number.

Definition ofZ (z : Z) : number := Num (IZR z).

Definition Rltb (x y : R) : bool := if Rlt_dec x y then true else false.
Definition Reqb (x y : R) : bool := if Req_dec_T x y then true else false.

(** An infinity multiplied by the finite real [r]: the sign of [r] decides,
    and [Infinity * 0] is [NaN]. *)
Definition scale_inf (positive : bool) (r : R) : number :=
  if Reqb r 0 then NaN
  else if Bool.eqb positive (Rltb 0 r) then PInf else NInf.

Definition neg (a : number) : number :=
  match a with
  | NaN => NaN
  | PInf => NInf
  | NInf => PInf
  | Num r => Num (- r)
  end.

Definition add (a b : number) : number :=
  match a, b with
  | NaN, _ | _, NaN => NaN
  | PInf, NInf | NInf, PInf => NaN
  | PInf, _ | _, PInf => PInf
  | NInf, _ | _, NInf => NInf
  | Num x, Num y => Num (x + y)
  end.

Definition sub (a b : number) : number := add a (neg b).

Definition mul (a b : number) : number :=
  match a, b with
  | NaN, _ | _, NaN => NaN
  | PInf, PInf | NInf, NInf => PInf
  | PInf, NInf | NInf, PInf => NInf
  | PInf, Num r | Num r, PInf => scale_inf true r
  | NInf, Num r | Num r, NInf => scale_inf false r
  | Num x, Num y => Num (x * y)
  end.

(** Division.  A finite value over zero is an infinity of the sign of the
    numerator, [0/0] is [NaN], a finite value over an infinity is 0. *)
Definition div (a b : number) : number :=
  match a, b with
  | NaN, _ | _, NaN => NaN
  | (PInf | NInf), (PInf | NInf) => NaN
  | PInf, Num r => if Rltb r 0 then NInf else PInf
  | NInf, Num r => if Rltb r 0 then PInf else NInf
  | Num _, (PInf | NInf) => Num 0
  | Num x, Num y => if Reqb y 0 then scale_inf true x else Num (x / y)
  end.

(** [a < b] and [a > b] of the source; false as soon as one side is
    [NaN]. *)
Definition ltb (a b : number) : bool :=
  match a, b with
  | NaN, _ | _, NaN => false
  | _, NInf => false
  | PInf, _ => false
  | NInf, _ => true
  | _, PInf => true
  | Num x, Num y => Rltb x y
  end.

Definition gtb (a b : number) : bool := ltb b a.

Notation "a + b" := (add a b) : js_scope.
Notation "a - b" := (sub a b) : js_scope.
Notation "a * b" := (mul a b) : js_scope.
Notation "a / b" := (div a b) : js_scope.
Notation "- a" := (neg a) : js_scope.

(** ** The [Math] object *)

Definition Math_PI : number := Num PI.

Definition Math_abs (a : number) : number :=
  match a with
  | NaN => NaN
  | PInf | NInf => PInf
  | Num r => Num (Rabs r)
  end.

Definition Math_sqrt (a : number) : number :=
  match a with
  | NaN | NInf => NaN
  | PInf => PInf
  | Num r => if Rltb r 0 then NaN else Num (sqrt r)
  end.

Definition Math_exp (a : number) : number :=
  match a with
  | NaN => NaN
  | PInf => PInf
  | NInf => Num 0
  | Num r => Num (exp r)
  end.

(** [Math.pow] at an integer exponent.  [Math.pow(x, 0)] is 1 for every
    [x], [NaN] included. *)
Definition Math_pow (a : number) (e : Z) : number :=
  if (e =? 0)%Z then Num 1
  else
    let m := Z.to_nat (Z.abs e) in
    let positive_power :=
      match a with
      | NaN => NaN
      | PInf => PInf
      | NInf => if Z.even e then PInf else NInf
      | Num r => Num (r ^ m)
      end in
    if (0 <? e)%Z then positive_power else (Num 1 / positive_power)%js.

(** [Math.floor] of a finite real. *)
Definition Math_floor (r : R) : Z := Int_part r.

(** ** CombinatoricsEngine *)

(** The body of [for (let i = 0; i < k; i++)] in [binomialCoefficient]:
    [steps] iterations remain, [i] is the counter. *)
Fixpoint binomialCoefficient_loop (n : Z) (steps : nat) (i : Z)
    (result : number) : number :=
  match steps with
  | O => result
  | S steps' =>
      binomialCoefficient_loop n steps' (i + 1)
        ((result * ofZ (n - i)) / ofZ (i + 1))%js
  end.

Definition binomialCoefficient (n k : Z) : number :=
  if ((k <? 0) || (k >? n))%Z then Num 0
  else if ((k =? 0) || (k =? n))%Z then Num 1
  else
    let k := Z.min k (n - k) in
    binomialCoefficient_loop n (Z.to_nat k) 0 (Num 1).

Definition binomialPMF (n k : Z) (p : number) : number :=
  if ((k <? 0) || (k >? n))%Z then Num 0
  else (binomialCoefficient n k * Math_pow p k
        * Math_pow (Num 1 - p) (n - k))%js.

(** ** GaussianEngine *)

Definition normalPDF (x mean stdDev : number) : number :=
  let coefficient := (Num 1 / (stdDev * Math_sqrt (Num 2 * Math_PI)))%js in
  let exponent := (Num (-0.5) * Math_pow ((x - mean) / stdDev) 2)%js in
  (coefficient * Math_exp exponent)%js.

Definition erf (x : number) : number :=
  let a1 := Num 0.254829592 in
  let a2 := Num (-0.284496736) in
  let a3 := Num 1.421413741 in
  let a4 := Num (-1.453152027) in
  let a5 := Num 1.061405429 in
  let p := Num 0.3275911 in
  let sign := if ltb x (Num 0) then Num (-1) else Num 1 in
  let x := Math_abs x in
  let t := (Num 1.0 / (Num 1.0 + p * x))%js in
  let y :=
    (Num 1.0
     - ((((a5 * t + a4) * t + a3) * t + a2) * t + a1) * t
       * Math_exp (- x * x))%js in
  (sign * y)%js.

Definition normalCDF (x mean stdDev : number) : number :=
  (Num 0.5 * (Num 1 + erf ((x - mean) / (stdDev * Math_sqrt (Num 2)))))%js.

Definition normalIntegral (a b mean stdDev : number) : number :=
  (normalCDF b mean stdDev - normalCDF a mean stdDev)%js.

(** ** RangeAggregator *)

(** The integers [lo, lo+1, ..., hi] visited by
    [for (let k = lo; k <= hi; k++)]; empty when [hi < lo]. *)
Definition Zrange (lo hi : Z) : list Z :=
  map (fun j => (lo + Z.of_nat j)%Z) (seq 0 (Z.to_nat (hi - lo + 1))).

(** The range bounds [a] and [b] are finite reals, which [Math.floor]
    takes to the integers the loop runs between. *)
Definition binomialSum (n : Z) (p : number) (a b : R) : number :=
  let sum := Num 0 in
  let startK := Z.max 0 (Math_floor a) in
  let endK := Z.min n (Math_floor b) in
  fold_left (fun sum k => (sum + binomialPMF n k p)%js)
    (Zrange startK endK) sum.

(** ** SeriesBuilder *)

(** The template literal of a point's label, kept as its parts:
    [k=${k}] or [p-hat=${(k / n).toFixed(3)}]. *)
Inductive Label : Type :=
| CountLabel (k : Z)
| ProportionLabel (proportion : number).

Record SeriesPoint : Type := mkPoint {
  x : number;
  y : number;
  normalY : number;
  label : Label
}.

(** [if (v > m) m = v] *)
Definition track_max (m v : number) : number := if gtb v m then v else m.

(** First pass of [generateBinomialData]: the array [binomialProbs] and
    the running maximum [maxBinomial]. *)
Definition firstPass (n : Z) (p : number) : list number * number :=
  fold_left
    (fun (st : list number * number) k =>
       let prob := binomialPMF n k p in
       (fst st ++ [prob], track_max (snd st) prob))
    (Zrange 0 n) ([], Num 0).

Definition binomialProbs (n : Z) (p : number) : list number :=
  fst (firstPass n p).

Definition maxBinomial (n : Z) (p : number) : number :=
  snd (firstPass n p).

Definition meanForPDF (n : Z) (p : number) (useProportions : bool) : number :=
  let mean := (ofZ n * p)%js in
  if useProportions then p else mean.

Definition stdDevForPDF (n : Z) (p : number) (useProportions : bool)
    : number :=
  let stdDev := Math_sqrt (ofZ n * p * (Num 1 - p))%js in
  if useProportions then Math_sqrt ((p * (Num 1 - p)) / ofZ n)%js
  else stdDev.

(** [useProportions ? k / n : k] *)
Definition xOf (n : Z) (useProportions : bool) (k : Z) : number :=
  if useProportions then (ofZ k / ofZ n)%js else ofZ k.

Definition maxNormal (n : Z) (p : number) (useProportions : bool) : number :=
  fold_left
    (fun maxNormal k =>
       let pdfVal :=
         normalPDF (xOf n useProportions k)
           (meanForPDF n p useProportions) (stdDevForPDF n p useProportions) in
       track_max maxNormal pdfVal)
    (Zrange 0 n) (Num 0).

(** [maxNormal > 0 && maxBinomial > 0 ? maxBinomial / maxNormal : 1] *)
Definition scaleFactorOf (maxBinomial maxNormal : number) : number :=
  if gtb maxNormal (Num 0) && gtb maxBinomial (Num 0)
  then (maxBinomial / maxNormal)%js
  else Num 1.

Definition scaleFactor (n : Z) (p : number) (useProportions : bool) : number :=
  scaleFactorOf (maxBinomial n p) (maxNormal n p useProportions).

(** [binomialProbs[k]]; an index outside the array reads [undefined],
    which behaves as [NaN] in arithmetic. *)
Definition array_get (l : list number) (k : Z) : number :=
  if (k <? 0)%Z then NaN else nth (Z.to_nat k) l NaN.

Definition generateBinomialData (n : Z) (p : number) (useProportions : bool)
    : list SeriesPoint :=
  let probs := binomialProbs n p in
  let scale := scaleFactor n p useProportions in
  map
    (fun k =>
       let binomialProb := array_get probs k in
       let x := xOf n useProportions k in
       let normalProb :=
         (normalPDF x (meanForPDF n p useProportions)
            (stdDevForPDF n p useProportions) * scale)%js in
       {| x := xOf n useProportions k;
          y := binomialProb;
          normalY := normalProb;
          label := if useProportions
                   then ProportionLabel (ofZ k / ofZ n)%js
                   else CountLabel k |})
    (Zrange 0 n).

(** ** Binary64

    The IEEE 754 binary64 operations, and the functions of the source that
    use no other arithmetic.  [n] and [k] are integers below 2^53, so that
    [n - i], [i + 1] and the conversions [ofZ] are exact. *)

Module B64.

Definition prec : Z := 53%Z.
Definition emax : Z := 1024%Z.

Definition f64 : Type := spec_float.

Definition add (x y : f64) : f64 := SFadd prec emax x y.
Definition sub (x y : f64) : f64 := SFsub prec emax x y.
Definition mul (x y : f64) : f64 := SFmul prec emax x y.
Definition div (x y : f64) : f64 := SFdiv prec emax x y.

(** The binary64 value just below [x]. *)
Definition pred (x : f64) : f64 := SFpred prec emax x.

(** The binary64 value nearest to the integer [z]. *)
Definition ofZ (z : Z) : f64 := binary_normalize prec emax z 0%Z false.

Definition is_finite (x : f64) : bool :=
  match x with
  | S754_zero _ | S754_finite _ _ _ => true
  | S754_infinity _ | S754_nan => false
  end.

(** The same binary64 value, bit for bit. *)
Definition same (x y : f64) : bool :=
  match x, y with
  | S754_zero a, S754_zero b => Bool.eqb a b
  | S754_infinity a, S754_infinity b => Bool.eqb a b
  | S754_nan, S754_nan => true
  | S754_finite a m e, S754_finite b m' e' =>
      Bool.eqb a b && Pos.eqb m m' && Z.eqb e e'
  | _, _ => false
  end.

(** [result = (result * (n - i)) / (i + 1)], as the source groups it. *)
Fixpoint binomialCoefficient_loop (n : Z) (steps : nat) (i : Z)
    (result : f64) : f64 :=
  match steps with
  | O => result
  | S steps' =>
      binomialCoefficient_loop n steps' (i + 1)
        (div (mul result (ofZ (n - i))) (ofZ (i + 1)))
  end.

Definition binomialCoefficient (n k : Z) : f64 :=
  if ((k <? 0) || (k >? n))%Z then ofZ 0
  else if ((k =? 0) || (k =? n))%Z then ofZ 1
  else
    let k := Z.min k (n - k) in
    binomialCoefficient_loop n (Z.to_nat k) 0 (ofZ 1).

(** The multiplicative recurrence as the specification words it:
    [result *= (n-i)/(i+1)] for [i] in [0..k'-1], from [result = 1]. *)
Fixpoint recurrence_product (n : Z) (steps : nat) (i : Z) (result : f64)
    : f64 :=
  match steps with
  | O => result
  | S steps' =>
      recurrence_product n steps' (i + 1)
        (mul result (div (ofZ (n - i)) (ofZ (i + 1))))
  end.

(** [Math.pow] returns an implementation-approximated value: it is the
    parameter [pow]. *)
Definition binomialPMF (pow : f64 -> f64 -> f64) (n k : Z) (p : f64) : f64 :=
  if ((k <? 0) || (k >? n))%Z then ofZ 0
  else mul (mul (binomialCoefficient n k) (pow p (ofZ k)))
           (pow (sub (ofZ 1) p) (ofZ (n - k))).

(** [binomialSum] at integer bounds, which [Math.floor] leaves alone. *)
Definition binomialSum (pow : f64 -> f64 -> f64) (n : Z) (p : f64) (a b : Z)
    : f64 :=
  let sum := ofZ 0 in
  let startK := Z.max 0 a in
  let endK := Z.min n b in
  fold_left (fun sum k => add sum (binomialPMF pow n k p))
    (Zrange startK endK) sum.

(** The successive values of [result] in the loop of
    [binomialCoefficient], the initial one included. *)
Fixpoint loop_trace (n : Z) (steps : nat) (i : Z) (result : f64)
    : list f64 :=
  match steps with
  | O => [result]
  | S steps' =>
      result
      :: loop_trace n steps' (i + 1)
           (div (mul result (ofZ (n - i))) (ofZ (i + 1)))
  end.

End B64.

(** ** Completions

    A call either returns a number or throws.  The error kinds are those
    the specification names. *)
Inductive CoreError : Type := DomainError | InvalidRangeError.

Inductive completion : Type :=
| Returns (v : number)
| Throws (e : CoreError).

(** No function of [page.tsx] lines 21-142 contains a [throw], and none
    of the arithmetic or [Math] operations they use throws: a call
    completes by returning the number its body computes. *)
Definition call_normalPDF (x mean stdDev : number) : completion :=
  Returns (normalPDF x mean stdDev).

Definition call_normalCDF (x mean stdDev : number) : completion :=
  Returns (normalCDF x mean stdDev).

Definition call_normalIntegral (a b mean stdDev : number) : completion :=
  Returns (normalIntegral a b mean stdDev).

(** [binomialSum] runs a loop: this describes a call whose counter stays
    below 2^53, where [k++] adds one. *)
Definition call_binomialSum (n : Z) (p : number) (a b : R) : completion :=
  Returns (binomialSum n p a b).

(** ** Vocabulary of the statements *)

Definition is_finite (a : number) : Prop := exists r, a = Num r.

(** [a] and [b] are finite and differ by at most [tol]. *)
Definition within (tol : R) (a b : number) : Prop :=
  exists u v, a = Num u /\ b = Num v /\ Rabs (u - v) <= tol.

(** Strictly increasing sequences of numbers. *)
Fixpoint strictly_increasing (l : list number) : Prop :=
  match l with
  | [] => True
  | a :: tl =>
      match tl with
      | [] => True
      | b :: _ => ltb a b = true /\ strictly_increasing tl
      end
  end.

(** The largest element of a list of numbers, by the total order of the
    finite reals; [None] for the empty list or when an element is not
    finite. *)
Fixpoint list_max (l : list number) : option R :=
  match l with
  | [] => None
  | Num r :: [] => Some r
  | Num r :: tl =>
      match list_max tl with
      | Some m => Some (Rmax r m)
      | None => None
      end
  | _ :: _ => None
  end.


(** [n!] and the binomial coefficient [n! / (k! (n - k)!)] as integers. *)
Definition Zfactorial (n : Z) : Z := fold_left Z.mul (Zrange 1 n) 1%Z.

Definition Zbinomial (n k : Z) : Z :=
  (Zfactorial n / (Zfactorial k * Zfactorial (n - k)))%Z.

(** Every coefficient of row [n] is below 2^53, so that binary64 holds
    it, and [binomialCoefficient] computes it exactly. *)
Definition exact_row (n : Z) : bool :=
  forallb
    (fun k =>
       (Zbinomial n k <? 9007199254740992)%Z
       && B64.same (B64.binomialCoefficient n k) (B64.ofZ (Zbinomial n k)))
    (Zrange 0 n).

(** No value of [result] overflows while the loop of
    [binomialCoefficient] runs up to the middle of row [n]. *)
Definition finite_row (n : Z) : bool :=
  forallb B64.is_finite
    (B64.loop_trace n (Z.to_nat (n / 2)) 0 (B64.ofZ 1)).

(** ** Real values on valid parameters

    The reals the functions return on finite arguments away from the
    division by zero, used to state and prove the closed forms below. *)

(** The mass at [K] out of [N] trials. *)
Definition pmf_value (N : nat) (r : R) (K : nat) : R :=
  C N K * r ^ K * (1 - r) ^ (N - K).

(** The normal density. *)
Definition pdf_value (u m s : R) : R :=
  1 / (s * sqrt (2 * PI)) * exp (-0.5 * ((u - m) / s) ^ 2).

(** The magnitude [y] computed by [erf] from [|x|]. *)
Definition erf_magnitude (u : R) : R :=
  let t := 1.0 / (1.0 + 0.3275911 * u) in
  1.0
  - ((((1.061405429 * t + -1.453152027) * t + 1.421413741) * t
      + -0.284496736) * t + 0.254829592) * t * exp (- u * u).

(** The normal reference parameters and the domain value of index [k],
    per mode: counts use [(n p, sqrt (n p (1 - p)))] and [x_k = k],
    proportions use [(p, sqrt (p (1 - p) / n))] and [x_k = k / n]. *)
Definition mean_value (n : Z) (r : R) (useProportions : bool) : R :=
  if useProportions then r else IZR n * r.

Definition stddev_value (n : Z) (r : R) (useProportions : bool) : R :=
  if useProportions then sqrt (r * (1 - r) / IZR n)
  else sqrt (IZR n * r * (1 - r)).

Definition x_value (n : Z) (useProportions : bool) (k : Z) : R :=
  if useProportions then IZR k / IZR n else IZR k.

(** The sum of a list of reals. *)
Definition Rsum (l : list R) : R := fold_right Rplus 0 l.

(** The masses at the indices [ks], out of [n] trials. *)
Definition masses (n : Z) (r : R) (ks : list Z) : list R :=
  map (fun k => pmf_value (Z.to_nat n) r (Z.to_nat k)) ks.

(** The standard normal cumulative value computed through [erf]. *)
Definition cdf_value (u m s : R) : R :=
  let z := (u - m) / (s * sqrt 2) in
  0.5 * (1 + (if Rltb z 0 then -1 else 1) * erf_magnitude (Rabs z)).

(** ** The page component [Home]

    The state hooks of [Home] (lines 145-151) and the code that updates
    them: the effect that runs when [n] changes (lines 154-157), the
    handlers of the switch (lines 283-293) and the [onValueChange]
    handlers of the four sliders (lines 308, 329, 420-423, 444-447).  The values memoised for display (lines 162-192) are
    functions of the state. *)

(** [Math.round] of a finite real: the nearest integer, a tie going to the
    larger one. *)
Definition Math_round (r : R) : Z := Int_part (r + 0.5).

Module Home.

Inductive View : Type := visualization | notes.

Record State : Type := mkState {
  activeView : View;
  n : Z;
  p : number;
  xMin : Z;
  xMax : Z;
  useProportions : bool
}.

(** The arguments of the [useState] calls. *)
Definition initial : State :=
  {| activeView := visualization; n := 50; p := Num 0.5;
     xMin := 20; xMax := 30; useProportions := false |}.

(** [if (xMin >= n) setXMin(Math.max(0, n - 1));
     if (xMax > n) setXMax(n);]
    Both tests read the state of the render that scheduled the effect. *)
Definition rangeEffect (s : State) : State :=
  {| activeView := activeView s;
     n := n s;
     p := p s;
     xMin := if (xMin s >=? n s)%Z then Z.max 0 (n s - 1) else xMin s;
     xMax := if (xMax s >? n s)%Z then n s else xMax s;
     useProportions := useProportions s |}.

(** [setN(Math.round(details.value[0]))] *)
Definition onNChange (value : R) (s : State) : State :=
  {| activeView := activeView s;
     n := Math_round value;
     p := p s;
     xMin := xMin s;
     xMax := xMax s;
     useProportions := useProportions s |}.

(** [setP(details.value[0])] *)
Definition onPChange (value : R) (s : State) : State :=
  {| activeView := activeView s;
     n := n s;
     p := Num value;
     xMin := xMin s;
     xMax := xMax s;
     useProportions := useProportions s |}.

(** [const newXMin = Math.round(details.value[0]);
     setXMin(Math.min(newXMin, xMax - 1));] *)
Definition onXMinChange (value : R) (s : State) : State :=
  let newXMin := Math_round value in
  {| activeView := activeView s;
     n := n s;
     p := p s;
     xMin := Z.min newXMin (xMax s - 1);
     xMax := xMax s;
     useProportions := useProportions s |}.

(** [const newXMax = Math.round(details.value[0]);
     setXMax(Math.max(newXMax, xMin + 1));] *)
Definition onXMaxChange (value : R) (s : State) : State :=
  let newXMax := Math_round value in
  {| activeView := activeView s;
     n := n s;
     p := p s;
     xMin := xMin s;
     xMax := Z.max newXMax (xMin s + 1);
     useProportions := useProportions s |}.

(** [setUseProportions(!!details.checked)] of the switch, lines 283-285. *)
Definition onCheckedChange (checked : bool) (s : State) : State :=
  {| activeView := activeView s;
     n := n s;
     p := p s;
     xMin := xMin s;
     xMax := xMax s;
     useProportions := checked |}.

(** [setUseProportions(!useProportions)] of the switch control,
    lines 290-293. *)
Definition onSwitchClick (s : State) : State :=
  {| activeView := activeView s;
     n := n s;
     p := p s;
     xMin := xMin s;
     xMax := xMax s;
     useProportions := negb (useProportions s) |}.

(** [useProportions ? p : n * p] *)
Definition mu (s : State) : number :=
  if useProportions s then p s else (ofZ (n s) * p s)%js.

(** [useProportions ? Math.sqrt((p * (1 - p)) / n)
                    : Math.sqrt(n * p * (1 - p))] *)
Definition sigma (s : State) : number :=
  if useProportions s
  then Math_sqrt ((p s * (Num 1 - p s)) / ofZ (n s))%js
  else Math_sqrt (ofZ (n s) * p s * (Num 1 - p s))%js.

Definition expectedSuccesses (s : State) : number := (ofZ (n s) * p s)%js.

Definition expectedFailures (s : State) : number :=
  (ofZ (n s) * (Num 1 - p s))%js.

(** [useProportions ? xMin / n : xMin] *)
Definition xMinScaled (s : State) : number :=
  if useProportions s then (ofZ (xMin s) / ofZ (n s))%js else ofZ (xMin s).

Definition xMaxScaled (s : State) : number :=
  if useProportions s then (ofZ (xMax s) / ofZ (n s))%js else ofZ (xMax s).

Definition binomialDiscreteSum (s : State) : number :=
  binomialSum (n s) (p s) (IZR (xMin s)) (IZR (xMax s)).

Definition normalIntegralValue (s : State) : number :=
  normalIntegral (xMinScaled s) (xMaxScaled s) (mu s) (sigma s).

(** The range the sliders maintain: [0 <= xMin < xMax <= n], with [n]
    within the bounds of its slider. *)
Definition range_ok (s : State) : Prop :=
  (1 <= n s <= 200)%Z /\ (0 <= xMin s)%Z /\ (xMin s < xMax s)%Z
  /\ (xMax s <= n s)%Z.

(** [setActiveView(...)] of the two navigation buttons, lines 225, 241. *)
Definition onNavClick (view : View) (s : State) : State :=
  {| activeView := view;
     n := n s;
     p := p s;
     xMin := xMin s;
     xMax := xMax s;
     useProportions := useProportions s |}.

(** What the user can do to the page. *)
Inductive Event : Type :=
| NSlider (value : R)
| PSlider (value : R)
| XMinSlider (value : R)
| XMaxSlider (value : R)
| SwitchChecked (checked : bool)
| SwitchClick
| NavClick (view : View).

(** The state after an event, once the page has settled: the handler
    runs, and when it changed [n] the effect with dependency [[n]] runs
    on the state the handler produced. *)
Definition handle (e : Event) (s : State) : State :=
  match e with
  | NSlider value =>
      let s' := onNChange value s in
      if (n s' =? n s)%Z then s' else rangeEffect s'
  | PSlider value => onPChange value s
  | XMinSlider value => onXMinChange value s
  | XMaxSlider value => onXMaxChange value s
  | SwitchChecked checked => onCheckedChange checked s
  | SwitchClick => onSwitchClick s
  | NavClick view => onNavClick view s
  end.

(** A slider reports values between its [min] and [max] properties:
    1 and 200 for [n], 0.01 and 0.99 for [p], 0 and [n] for the range. *)
Definition in_bounds (e : Event) (s : State) : Prop :=
  match e with
  | NSlider value => 1 <= value <= 200
  | PSlider value => 0.01 <= value <= 0.99
  | XMinSlider value | XMaxSlider value => 0 <= value <= IZR (n s)
  | SwitchChecked _ | SwitchClick | NavClick _ => True
  end.

(** The settled states the page can be in. *)
Inductive reachable : State -> Prop :=
| reach_initial : reachable initial
| reach_step (s : State) (e : Event) :
    reachable s -> in_bounds e s -> reachable (handle e s).

End Home.

(** * Properties *)

(** ** Arithmetic on finite numbers *)

Lemma Rltb_true (u v : R) : u < v -> Rltb u v = true.
Proof. intros H; unfold Rltb; destruct (Rlt_dec u v); [reflexivity | lra]. Qed.

Lemma Rltb_false (u v : R) : v <= u -> Rltb u v = false.
Proof. intros H; unfold Rltb; destruct (Rlt_dec u v); [lra | reflexivity]. Qed.

Lemma Reqb_true (u v : R) : u = v -> Reqb u v = true.
Proof.
  intros H; unfold Reqb; destruct (Req_dec_T u v); [reflexivity | contradiction].
Qed.

Lemma Reqb_false (u v : R) : u <> v -> Reqb u v = false.
Proof.
  intros H; unfold Reqb; destruct (Req_dec_T u v); [contradiction | reflexivity].
Qed.

Lemma div_Num (u v : R) : v <> 0 -> (Num u / Num v)%js = Num (u / v).
Proof. intros H; simpl; rewrite Reqb_false by assumption; reflexivity. Qed.

Lemma div_zero_pos (u : R) : 0 < u -> (Num u / Num 0)%js = PInf.
Proof.
  intros H; simpl; rewrite Reqb_true by reflexivity.
  unfold scale_inf; rewrite Reqb_false by lra.
  rewrite Rltb_true by lra; reflexivity.
Qed.

Lemma gtb_Num (u v : R) : gtb (Num u) (Num v) = Rltb v u.
Proof. reflexivity. Qed.

(** ** binomialCoefficient *)

(** C7, as stated, fails on the last case: in binary64 the source's
    [(result * (n - i)) / (i + 1)] and the product [result *= (n - i) / (i + 1)]
    round differently.  [binomialCoefficient(11, 5)] is 462, the product
    is the binary64 value just below 462. *)
Lemma binomialCoefficient_product_counterexample :
  (0 < 5 < 11)%Z
  /\ B64.binomialCoefficient 11 5 = B64.ofZ 462
  /\ B64.recurrence_product 11 (Z.to_nat (Z.min 5 (11 - 5))) 0 (B64.ofZ 1)
     = B64.pred (B64.ofZ 462)
  /\ B64.binomialCoefficient 11 5
     <> B64.recurrence_product 11 (Z.to_nat (Z.min 5 (11 - 5))) 0 (B64.ofZ 1).
Proof.
  split; [lia | split; [| split]].
  - vm_compute. reflexivity.
  - vm_compute. reflexivity.
  - intros H. vm_compute in H. discriminate H.
Qed.

(** C7, amended.  [binomialCoefficient(n, k)] is 0 when [k < 0] or
    [k > n]; failing that it is 1 when [k = 0] or [k = n], so that
    [binomialCoefficient(n, 0) = binomialCoefficient(n, n) = 1] for every
    [n >= 0]; and in the remaining case it is the value obtained from
    [result = 1] by [result = (result * (n - i)) / (i + 1)], multiplying
    before dividing, for [i = 0 .. min(k, n - k) - 1]. *)
Theorem binomialCoefficient_cases (n k : Z) :
  ((k < 0 \/ k > n)%Z -> binomialCoefficient n k = Num 0)
  /\ ((0 <= k <= n)%Z -> (k = 0 \/ k = n)%Z -> binomialCoefficient n k = Num 1)
  /\ ((0 <= n)%Z ->
      binomialCoefficient n 0 = Num 1 /\ binomialCoefficient n n = Num 1)
  /\ ((0 < k < n)%Z ->
      binomialCoefficient n k
      = binomialCoefficient_loop n (Z.to_nat (Z.min k (n - k))) 0 (Num 1)).
Proof.
  assert (Hone : forall m j : Z, (0 <= j <= m)%Z -> (j = 0 \/ j = m)%Z ->
                   binomialCoefficient m j = Num 1).
  { intros m j Hr He. unfold binomialCoefficient.
    replace ((j <? 0) || (j >? m))%Z with false
      by (symmetry; apply orb_false_iff; split; lia).
    replace ((j =? 0) || (j =? m))%Z with true
      by (symmetry; apply orb_true_iff; lia).
    reflexivity. }
  repeat split.
  - intros H. unfold binomialCoefficient.
    replace ((k <? 0) || (k >? n))%Z with true
      by (symmetry; apply orb_true_iff; lia).
    reflexivity.
  - exact (Hone n k).
  - apply Hone; lia.
  - apply Hone; lia.
  - intros H. unfold binomialCoefficient.
    replace ((k <? 0) || (k >? n))%Z with false
      by (symmetry; apply orb_false_iff; split; lia).
    replace ((k =? 0) || (k =? n))%Z with false
      by (symmetry; apply orb_false_iff; split; lia).
    reflexivity.
Qed.

Lemma binomialCoefficient_cases_witness :
  binomialCoefficient 5 (-1) = Num 0
  /\ binomialCoefficient 5 5 = Num 1
  /\ (binomialCoefficient 5 0 = Num 1 /\ binomialCoefficient 5 5 = Num 1)
  /\ binomialCoefficient 5 2
     = binomialCoefficient_loop 5 (Z.to_nat (Z.min 2 (5 - 2))) 0 (Num 1).
Proof.
  split; [| split; [| split]].
  - apply (proj1 (binomialCoefficient_cases 5 (-1))); lia.
  - apply (proj1 (proj2 (binomialCoefficient_cases 5 5))); lia.
  - apply (proj1 (proj2 (proj2 (binomialCoefficient_cases 5 5)))); lia.
  - apply (proj2 (proj2 (proj2 (binomialCoefficient_cases 5 2)))); lia.
Defined.

(** C10. [binomialCoefficient] is exactly symmetric: for [n >= 0] and
    [0 <= k <= n], [binomialCoefficient(n, k) = binomialCoefficient(n, n - k)]:
    both calls run the same loop up to [min(k, n - k)]. *)
Theorem binomialCoefficient_symmetric (n k : Z) :
  (0 <= n)%Z -> (0 <= k <= n)%Z ->
  binomialCoefficient n k = binomialCoefficient n (n - k).
Proof.
  intros Hn Hk. unfold binomialCoefficient.
  replace ((k <? 0) || (k >? n))%Z with false
    by (symmetry; apply orb_false_iff; split; lia).
  replace ((n - k <? 0) || (n - k >? n))%Z with false
    by (symmetry; apply orb_false_iff; split; lia).
  destruct (Z.eq_dec k 0) as [-> | Hk0].
  - rewrite Z.sub_0_r, !Z.eqb_refl, orb_true_r. reflexivity.
  - destruct (Z.eq_dec k n) as [-> | Hkn].
    + rewrite Z.sub_diag, !Z.eqb_refl, orb_true_r. reflexivity.
    + replace ((k =? 0) || (k =? n))%Z with false
        by (symmetry; apply orb_false_iff; split; lia).
      replace ((n - k =? 0) || (n - k =? n))%Z with false
        by (symmetry; apply orb_false_iff; split; lia).
      cbv zeta.
      replace (Z.min (n - k) (n - (n - k))) with (Z.min k (n - k)) by lia.
      reflexivity.
Qed.

Lemma binomialCoefficient_symmetric_witness :
  binomialCoefficient 7 2 = binomialCoefficient 7 (7 - 2).
Proof. apply (binomialCoefficient_symmetric 7 2); lia. Defined.

(** ** Closed forms on valid parameters *)

Lemma C_step (N i : nat) :
  (i < N)%nat -> C N (S i) = C N i * INR (N - i) / INR (S i).
Proof.
  intros Hi. unfold C.
  replace (N - i)%nat with (S (N - S i)) by lia.
  rewrite !fact_simpl, !mult_INR.
  pose proof (INR_fact_neq_0 i). pose proof (INR_fact_neq_0 (N - S i)).
  pose proof (not_0_INR (S i) ltac:(lia)).
  pose proof (not_0_INR (S (N - S i)) ltac:(lia)).
  field. repeat split; assumption.
Qed.

Lemma C_zero (N : nat) : C N 0 = 1.
Proof.
  unfold C. rewrite Nat.sub_0_r. simpl fact. simpl INR.
  pose proof (INR_fact_neq_0 N). field. assumption.
Qed.

Lemma C_diag (N : nat) : C N N = 1.
Proof. rewrite pascal_step1 by lia. rewrite Nat.sub_diag. apply C_zero. Qed.

Lemma loop_closed (N steps : nat) :
  forall i : nat, (i + steps <= N)%nat ->
    binomialCoefficient_loop (Z.of_nat N) steps (Z.of_nat i) (Num (C N i))
    = Num (C N (i + steps)).
Proof.
  induction steps as [| s IH]; intros i Hi.
  - rewrite Nat.add_0_r. reflexivity.
  - cbn [binomialCoefficient_loop]. unfold ofZ. cbn [mul].
    assert (Hne : IZR (Z.of_nat i + 1) <> 0) by (apply not_0_IZR; lia).
    rewrite div_Num by exact Hne.
    replace (Z.of_nat i + 1)%Z with (Z.of_nat (S i)) by lia.
    replace (Z.of_nat N - Z.of_nat i)%Z with (Z.of_nat (N - i)) by lia.
    rewrite <- !INR_IZR_INZ, <- C_step by lia.
    rewrite IH by lia. f_equal. f_equal. lia.
Qed.

Lemma binomialCoefficient_closed (N K : nat) :
  (K <= N)%nat ->
  binomialCoefficient (Z.of_nat N) (Z.of_nat K) = Num (C N K).
Proof.
  intros HK. unfold binomialCoefficient.
  replace ((Z.of_nat K <? 0) || (Z.of_nat K >? Z.of_nat N))%Z with false
    by (symmetry; apply orb_false_iff; split; lia).
  destruct (Nat.eq_dec K 0) as [-> | HK0].
  - simpl. rewrite C_zero. reflexivity.
  - destruct (Nat.eq_dec K N) as [-> | HKN].
    + rewrite Z.eqb_refl, orb_true_r, C_diag. reflexivity.
    + replace ((Z.of_nat K =? 0) || (Z.of_nat K =? Z.of_nat N))%Z with false
        by (symmetry; apply orb_false_iff; split; lia).
      cbv zeta.
      rewrite <- (C_zero N).
      change 0%Z with (Z.of_nat 0).
      rewrite loop_closed by lia. rewrite Nat.add_0_l.
      destruct (Z.min_spec (Z.of_nat K) (Z.of_nat N - Z.of_nat K))
        as [[_ ->] | [_ ->]].
      * rewrite Nat2Z.id. reflexivity.
      * replace (Z.to_nat (Z.of_nat N - Z.of_nat K)) with (N - K)%nat by lia.
        rewrite <- pascal_step1 by lia. reflexivity.
Qed.

Lemma Math_pow_nat (r : R) (K : nat) :
  Math_pow (Num r) (Z.of_nat K) = Num (r ^ K).
Proof.
  unfold Math_pow. destruct K as [| K].
  - reflexivity.
  - replace (Z.of_nat (S K) =? 0)%Z with false
      by (symmetry; apply Z.eqb_neq; lia).
    replace (0 <? Z.of_nat (S K))%Z with true
      by (symmetry; apply Z.ltb_lt; lia).
    cbv zeta. rewrite Z.abs_eq by lia. rewrite Nat2Z.id. reflexivity.
Qed.

Lemma binomialPMF_closed (N K : nat) (r : R) :
  (K <= N)%nat ->
  binomialPMF (Z.of_nat N) (Z.of_nat K) (Num r) = Num (pmf_value N r K).
Proof.
  intros HK. unfold binomialPMF.
  replace ((Z.of_nat K <? 0) || (Z.of_nat K >? Z.of_nat N))%Z with false
    by (symmetry; apply orb_false_iff; split; lia).
  rewrite binomialCoefficient_closed by assumption.
  replace (Z.of_nat N - Z.of_nat K)%Z with (Z.of_nat (N - K)) by lia.
  cbn [sub neg add]. rewrite !Math_pow_nat. cbn [mul].
  unfold pmf_value, Rminus. reflexivity.
Qed.

Lemma C_pos (N K : nat) : (K <= N)%nat -> 0 < C N K.
Proof.
  intros _. unfold C. apply Rdiv_lt_0_compat.
  - apply INR_fact_lt_0.
  - apply Rmult_lt_0_compat; apply INR_fact_lt_0.
Qed.

Lemma pmf_value_pos (N K : nat) (r : R) :
  (K <= N)%nat -> 0 < r < 1 -> 0 < pmf_value N r K.
Proof.
  intros HK Hr. unfold pmf_value.
  apply Rmult_lt_0_compat; [apply Rmult_lt_0_compat |].
  - apply C_pos; assumption.
  - apply pow_lt; lra.
  - apply pow_lt; lra.
Qed.

Lemma pmf_value_total (N : nat) (r : R) :
  sum_f_R0 (pmf_value N r) N = 1.
Proof.
  unfold pmf_value. rewrite <- binomial.
  replace (r + (1 - r)) with 1 by lra. apply pow1.
Qed.

(** ** Ranges *)

Lemma Zrange_length (lo hi : Z) :
  length (Zrange lo hi) = Z.to_nat (hi - lo + 1).
Proof. unfold Zrange. rewrite length_map, length_seq. reflexivity. Qed.

Lemma Zrange_empty (lo hi : Z) : (hi < lo)%Z -> Zrange lo hi = [].
Proof.
  intros H. unfold Zrange.
  replace (Z.to_nat (hi - lo + 1)) with 0%nat by lia. reflexivity.
Qed.

Lemma Zrange_nat (N : nat) :
  Zrange 0 (Z.of_nat N) = map Z.of_nat (seq 0 (S N)).
Proof.
  unfold Zrange.
  replace (Z.to_nat (Z.of_nat N - 0 + 1)) with (S N) by lia.
  apply map_ext. intros j. lia.
Qed.

Lemma Int_part_IZR (z : Z) : Int_part (IZR z) = z.
Proof. symmetry. apply Int_part_spec. lra. Qed.

(** ** binomialSum *)

Lemma fold_left_mapped {A B C : Type} (f : A -> B -> A) (g : C -> B)
    (l : list C) (a : A) :
  fold_left f (map g l) a = fold_left (fun acc c => f acc (g c)) l a.
Proof. revert a; induction l as [| c l IH]; intros a; simpl; auto. Qed.

Lemma sum_loop_closed (n : Z) (p : number) (g : nat -> R) (m : nat) :
  (forall j, (j <= m)%nat -> binomialPMF n (Z.of_nat j) p = Num (g j)) ->
  fold_left (fun sum k => (sum + binomialPMF n k p)%js)
    (map Z.of_nat (seq 0 (S m))) (Num 0)
  = Num (sum_f_R0 g m).
Proof.
  induction m as [| m IH]; intros Hg.
  - cbn [seq map fold_left]. rewrite (Hg 0%nat) by lia.
    cbn [add sum_f_R0]. f_equal. lra.
  - rewrite seq_S, map_app, fold_left_app, IH by (intros; apply Hg; lia).
    cbn [Nat.add map fold_left]. rewrite (Hg (S m)) by lia. reflexivity.
Qed.

Lemma binomialSum_full_range (N : nat) (r : R) :
  binomialSum (Z.of_nat N) (Num r) 0 (IZR (Z.of_nat N)) = Num 1.
Proof.
  unfold binomialSum, Math_floor.
  change 0 with (IZR 0). rewrite !Int_part_IZR.
  rewrite Z.max_id, Z.min_id, Zrange_nat.
  rewrite (sum_loop_closed _ _ (pmf_value N r)).
  - rewrite pmf_value_total. reflexivity.
  - intros j Hj. apply binomialPMF_closed. exact Hj.
Qed.

Lemma Zrange_In_inv (lo hi k : Z) : (lo <= k <= hi)%Z -> In k (Zrange lo hi).
Proof.
  intros Hk. unfold Zrange. apply in_map_iff.
  exists (Z.to_nat (k - lo)). split; [lia |]. apply in_seq. lia.
Qed.

(** *** Binary64: overflow *)






Lemma B64_overflow_1021 :
  B64.binomialCoefficient 1021 510 = S754_infinity false.
Proof. vm_compute. reflexivity. Qed.





Lemma Math_floor_monotone (a b : R) :
  a <= b -> (Math_floor a <= Math_floor b)%Z.
Proof.
  intros H. unfold Math_floor.
  destruct (base_Int_part a) as [Ha _]. destruct (base_Int_part b) as [_ Hb].
  apply Z.lt_succ_r. apply lt_IZR. rewrite succ_IZR. lra.
Qed.

Lemma Math_floor_IZR (z : Z) : Math_floor (IZR z) = z.
Proof. apply Int_part_IZR. Qed.

Lemma Math_floor_unique (r : R) (z : Z) :
  IZR z <= r < IZR z + 1 -> Math_floor r = z.
Proof. intros H. symmetry. apply Int_part_spec. lra. Qed.

Lemma binomialSum_empty (n : Z) (p : number) (a b : R) :
  (Z.min n (Math_floor b) < Z.max 0 (Math_floor a))%Z ->
  binomialSum n p a b = Num 0.
Proof.
  intros H. unfold binomialSum. rewrite Zrange_empty by exact H. reflexivity.
Qed.

Lemma binomialSum_single (n : Z) (p : number) (a b : R) (k : Z) :
  Z.max 0 (Math_floor a) = k -> Z.min n (Math_floor b) = k ->
  binomialSum n p a b = (Num 0 + binomialPMF n k p)%js.
Proof.
  intros Ha Hb. unfold binomialSum. rewrite Ha, Hb. unfold Zrange.
  replace (Z.to_nat (k - k + 1)) with 1%nat by lia.
  cbn [seq map fold_left]. rewrite Z.add_0_r. reflexivity.
Qed.

(** C3, as stated, fails: with [a = 0.5 > b = 0.2] both floors are 0 and
    [binomialSum(1, 0.5, 0.5, 0.2)] is the mass at [k = 0], 0.5. *)
Lemma binomialSum_reversed_counterexample :
  (1 <= 1)%Z /\ 0 < 0.5 < 1 /\ 0.5 > 0.2
  /\ binomialSum 1 (Num 0.5) 0.5 0.2 = Num 0.5
  /\ binomialSum 1 (Num 0.5) 0.5 0.2 <> Num 0.
Proof.
  assert (H : binomialSum 1 (Num 0.5) 0.5 0.2 = Num 0.5).
  { rewrite (binomialSum_single 1 (Num 0.5) 0.5 0.2 0).
    - change (binomialPMF 1 0) with (binomialPMF (Z.of_nat 1) (Z.of_nat 0)).
      rewrite binomialPMF_closed by lia.
      unfold pmf_value. rewrite C_zero. cbn [add Nat.sub pow]. f_equal. lra.
    - rewrite (Math_floor_unique 0.5 0) by lra. reflexivity.
    - rewrite (Math_floor_unique 0.2 0) by lra. reflexivity. }
  repeat split; try lra; try lia.
  - exact H.
  - rewrite H. intros E. injection E. lra.
Qed.

(** C3, amended.  [binomialSum(n, p, a, b)] sums [binomialPMF(n, k, p)] for
    [k] from [max(0, floor(a))] to [min(n, floor(b))]; it returns exactly 0
    whenever [floor(a) > floor(b)], in particular for integers [a > b]. *)
Theorem binomialSum_reversed (n : Z) (p : number) (a b : R) :
  (Math_floor b < Math_floor a)%Z ->
  binomialSum n p a b
  = fold_left (fun sum k => (sum + binomialPMF n k p)%js)
      (Zrange (Z.max 0 (Math_floor a)) (Z.min n (Math_floor b))) (Num 0)
  /\ binomialSum n p a b = Num 0.
Proof.
  intros H. split; [reflexivity |]. apply binomialSum_empty. lia.
Qed.

Lemma binomialSum_reversed_witness :
  binomialSum 10 (Num 0.5) 7 3
  = fold_left (fun sum k => (sum + binomialPMF 10 k (Num 0.5))%js)
      (Zrange (Z.max 0 (Math_floor 7)) (Z.min 10 (Math_floor 3))) (Num 0)
  /\ binomialSum 10 (Num 0.5) 7 3 = Num 0.
Proof.
  apply (binomialSum_reversed 10 (Num 0.5) 7 3).
  rewrite (Math_floor_IZR 7), (Math_floor_IZR 3). lia.
Defined.

Lemma Math_floor_Rmax (z : Z) (a : R) :
  Math_floor (Rmax (IZR z) a) = Z.max z (Math_floor a).
Proof.
  destruct (Rle_dec (IZR z) a) as [H | H].
  - rewrite Rmax_right by exact H.
    apply Math_floor_monotone in H. rewrite Math_floor_IZR in H. lia.
  - rewrite Rmax_left by lra. rewrite Math_floor_IZR.
    assert (H' : a <= IZR z) by lra.
    apply Math_floor_monotone in H'. rewrite Math_floor_IZR in H'. lia.
Qed.

Lemma Math_floor_Rmin (z : Z) (b : R) :
  Math_floor (Rmin (IZR z) b) = Z.min z (Math_floor b).
Proof.
  destruct (Rle_dec (IZR z) b) as [H | H].
  - rewrite Rmin_left by exact H. rewrite Math_floor_IZR.
    apply Math_floor_monotone in H. rewrite Math_floor_IZR in H. lia.
  - rewrite Rmin_right by lra.
    assert (H' : b <= IZR z) by lra.
    apply Math_floor_monotone in H'. rewrite Math_floor_IZR in H'. lia.
Qed.

Lemma C_2_1 : C 2 1 = 2.
Proof. unfold C. simpl. field. Qed.

(** C2, as stated, fails: with [xMin = xMax = 1] the call
    [binomialSum(2, 0.5, 1, 1)] returns the mass at [k = 1], 0.5, and
    raises nothing. *)
Lemma binomialSum_invalid_range_counterexample :
  1 >= 1
  /\ call_binomialSum 2 (Num 0.5) 1 1 = Returns (Num 0.5)
  /\ call_binomialSum 2 (Num 0.5) 1 1 <> Throws InvalidRangeError.
Proof.
  assert (H : binomialSum 2 (Num 0.5) 1 1 = Num 0.5).
  { rewrite (binomialSum_single 2 (Num 0.5) 1 1 1).
    - change (binomialPMF 2 1) with (binomialPMF (Z.of_nat 2) (Z.of_nat 1)).
      rewrite binomialPMF_closed by lia.
      unfold pmf_value. rewrite C_2_1. cbn [add Nat.sub pow]. f_equal. lra.
    - rewrite (Math_floor_IZR 1). reflexivity.
    - rewrite (Math_floor_IZR 1). reflexivity. }
  unfold call_binomialSum. rewrite H.
  split; [lra | split; [reflexivity | discriminate]].
Qed.

(** C2, amended.  [binomialSum] and [normalIntegral] raise no error.  For
    [|n| < 2^53], where the loop counter can be incremented, a call of
    [binomialSum] returns a number; it clamps bounds outside [0, n] to
    that interval, and with [xMin = xMax = k], [0 <= k <= n], it returns
    the single mass [binomialPMF(n, k, p)] (added to the initial 0).
    [normalIntegral(a, b, mean, stdDev)] returns
    [normalCDF(b) - normalCDF(a)]. *)
Theorem binomialSum_never_raises (n : Z) (p : number) (a b : R) :
  (Z.abs n < 9007199254740992)%Z ->
  call_binomialSum n p a b = Returns (binomialSum n p a b)
  /\ binomialSum n p a b = binomialSum n p (Rmax 0 a) (Rmin (IZR n) b)
  /\ (forall k : Z, (0 <= k <= n)%Z ->
        call_binomialSum n p (IZR k) (IZR k)
        = Returns (Num 0 + binomialPMF n k p)%js)
  /\ (forall lo hi mean stdDev : number,
        call_normalIntegral lo hi mean stdDev
        = Returns (normalCDF hi mean stdDev - normalCDF lo mean stdDev)%js).
Proof.
  intros _. split; [reflexivity | split; [| split]].
  - unfold binomialSum.
    rewrite (Math_floor_Rmax 0 a), (Math_floor_Rmin n b).
    rewrite Z.max_assoc, Z.max_id, Z.min_assoc, Z.min_id. reflexivity.
  - intros k Hk. unfold call_binomialSum. f_equal.
    apply binomialSum_single; rewrite Math_floor_IZR; lia.
  - reflexivity.
Qed.

Lemma binomialSum_never_raises_witness :
  call_binomialSum 10 (Num 0.5) 12 3 = Returns (binomialSum 10 (Num 0.5) 12 3)
  /\ binomialSum 10 (Num 0.5) 12 3
     = binomialSum 10 (Num 0.5) (Rmax 0 12) (Rmin (IZR 10) 3)
  /\ (forall k : Z, (0 <= k <= 10)%Z ->
        call_binomialSum 10 (Num 0.5) (IZR k) (IZR k)
        = Returns (Num 0 + binomialPMF 10 k (Num 0.5))%js)
  /\ (forall lo hi mean stdDev : number,
        call_normalIntegral lo hi mean stdDev
        = Returns (normalCDF hi mean stdDev - normalCDF lo mean stdDev)%js).
Proof. apply (binomialSum_never_raises 10 (Num 0.5) 12 3). cbn. lia. Defined.

(** ** normalPDF *)

Lemma sqrt_2PI_pos : 0 < sqrt (2 * PI).
Proof. apply sqrt_lt_R0. pose proof PI_RGT_0. lra. Qed.

Lemma Math_sqrt_2PI : Math_sqrt (Num 2 * Math_PI) = Num (sqrt (2 * PI)).
Proof.
  unfold Math_PI. cbn [mul Math_sqrt].
  rewrite Rltb_false; [reflexivity |]. pose proof PI_RGT_0. lra.
Qed.

Lemma div_by_zero (a : number) :
  (a / Num 0)%js = NaN \/ (a / Num 0)%js = PInf \/ (a / Num 0)%js = NInf.
Proof.
  destruct a as [| | | r]; cbn [div].
  - auto.
  - rewrite Rltb_false by lra. auto.
  - rewrite Rltb_false by lra. auto.
  - rewrite Reqb_true by reflexivity. unfold scale_inf.
    destruct (Reqb r 0); auto. destruct (Bool.eqb true (Rltb 0 r)); auto.
Qed.

Lemma normalPDF_zero_stdDev (x mean : number) :
  normalPDF x mean (Num 0) = NaN.
Proof.
  unfold normalPDF. rewrite Math_sqrt_2PI. cbn [mul].
  rewrite Rmult_0_l, div_zero_pos by lra.
  assert (Hexp : forall z, z = NaN \/ z = PInf \/ z = NInf ->
            (PInf * Math_exp (Num (-0.5) * Math_pow z 2))%js = NaN).
  { assert (Hm : scale_inf true (-0.5) = NInf).
    { unfold scale_inf. rewrite Reqb_false, Rltb_false by lra. reflexivity. }
    assert (H0 : scale_inf true 0 = NaN).
    { unfold scale_inf. rewrite Reqb_true; reflexivity. }
    intros z [-> | [-> | ->]].
    - reflexivity.
    - change (Math_pow PInf 2) with PInf. cbn [mul]. rewrite Hm.
      cbn [Math_exp mul]. exact H0.
    - change (Math_pow NInf 2) with PInf. cbn [mul]. rewrite Hm.
      cbn [Math_exp mul]. exact H0. }
  apply Hexp. apply div_by_zero.
Qed.

Lemma normalPDF_closed (u m s : R) :
  s <> 0 -> normalPDF (Num u) (Num m) (Num s) = Num (pdf_value u m s).
Proof.
  intros Hs. unfold normalPDF. rewrite Math_sqrt_2PI.
  pose proof sqrt_2PI_pos as Hq.
  cbn [mul sub neg add]. rewrite !div_Num; try assumption.
  - change (Math_pow (Num ((u + - m) / s)) 2) with (Num (((u + - m) / s) ^ 2)).
    cbn [mul Math_exp]. unfold pdf_value, Rminus. reflexivity.
  - apply Rmult_integral_contrapositive_currified; lra.
Qed.

Lemma pdf_value_pos (u m s : R) : 0 < s -> 0 < pdf_value u m s.
Proof.
  intros Hs. unfold pdf_value. pose proof sqrt_2PI_pos as Hq.
  apply Rmult_lt_0_compat; [| apply exp_pos].
  apply Rdiv_lt_0_compat; [lra |]. apply Rmult_lt_0_compat; lra.
Qed.

(** C1, as stated, fails: [normalPDF(0, 0, 0)] raises nothing and returns
    [NaN]. *)
Lemma normalPDF_domain_counterexample :
  0 <= 0
  /\ call_normalPDF (Num 0) (Num 0) (Num 0) = Returns NaN
  /\ call_normalPDF (Num 0) (Num 0) (Num 0) <> Throws DomainError.
Proof.
  unfold call_normalPDF. rewrite normalPDF_zero_stdDev.
  split; [lra | split; [reflexivity | discriminate]].
Qed.

(** C1, amended.  No Gaussian function validates [stddev] or raises an
    error: [normalPDF], [normalCDF] and [normalIntegral] return for every
    argument, and with [stddev = 0] [normalPDF] returns [NaN], for every
    [x] and [mean]. *)
Theorem gaussian_never_raises :
  (forall x mean stdDev : number,
      call_normalPDF x mean stdDev = Returns (normalPDF x mean stdDev)
      /\ call_normalCDF x mean stdDev = Returns (normalCDF x mean stdDev)
      /\ forall a b : number,
           call_normalIntegral a b mean stdDev
           = Returns (normalIntegral a b mean stdDev))
  /\ (forall x mean : number, call_normalPDF x mean (Num 0) = Returns NaN).
Proof.
  split.
  - intros. repeat split.
  - intros. unfold call_normalPDF. rewrite normalPDF_zero_stdDev. reflexivity.
Qed.

(** ** erf *)

Lemma erf_closed (u : R) :
  erf (Num u)
  = Num ((if Rltb u 0 then -1 else 1) * erf_magnitude (Rabs u)).
Proof.
  unfold erf. cbv zeta. cbn [Math_abs mul add ltb].
  assert (Hd : 1.0 + 0.3275911 * Rabs u <> 0)
    by (pose proof (Rabs_pos u); lra).
  rewrite div_Num by exact Hd.
  cbn [mul add sub neg Math_exp].
  destruct (Rltb u 0); cbn [mul]; unfold erf_magnitude, Rminus; reflexivity.
Qed.

Lemma erf_magnitude_0 : erf_magnitude 0 = 1e-9.
Proof.
  unfold erf_magnitude. cbv zeta.
  replace (- 0 * 0) with 0 by lra. rewrite exp_0. lra.
Qed.

(** C8. The approximation is odd-symmetric within [1.5e-7]:
    [erf(0)] is within that tolerance of 0, and [erf(-x)] within it of
    [-erf(x)], for every real [x]. *)
Theorem erf_odd_symmetric :
  within 1.5e-7 (erf (Num 0)) (Num 0)
  /\ forall u : R, within 1.5e-7 (erf (Num (- u))) (- erf (Num u))%js.
Proof.
  split.
  - rewrite erf_closed, Rltb_false, Rabs_R0, erf_magnitude_0 by lra.
    eexists _, _. split; [reflexivity | split; [reflexivity |]].
    apply Rabs_le. lra.
  - intros u. rewrite !erf_closed, Rabs_Ropp. cbn [neg].
    eexists _, _. split; [reflexivity | split; [reflexivity |]].
    destruct (Rtotal_order u 0) as [Hu | [Hu | Hu]].
    + rewrite (Rltb_true u 0), (Rltb_false (- u) 0) by lra.
      replace (1 * erf_magnitude (Rabs u) - - (-1 * erf_magnitude (Rabs u)))
        with 0 by lra.
      rewrite Rabs_R0. lra.
    + subst u. rewrite Ropp_0, Rltb_false, Rabs_R0, erf_magnitude_0 by lra.
      apply Rabs_le. lra.
    + rewrite (Rltb_false u 0), (Rltb_true (- u) 0) by lra.
      replace (-1 * erf_magnitude (Rabs u) - - (1 * erf_magnitude (Rabs u)))
        with 0 by lra.
      rewrite Rabs_R0. lra.
Qed.

(** ** generateBinomialData: the two passes *)

Lemma firstPass_fold (n : Z) (p : number) (l : list Z) :
  forall (acc : list number) (m : number),
    fold_left
      (fun (st : list number * number) k =>
         let prob := binomialPMF n k p in
         (fst st ++ [prob], track_max (snd st) prob))
      l (acc, m)
    = (acc ++ map (fun k => binomialPMF n k p) l,
       fold_left track_max (map (fun k => binomialPMF n k p) l) m).
Proof.
  induction l as [| k l IH]; intros acc m.
  - simpl. rewrite app_nil_r. reflexivity.
  - cbn [fold_left map]. cbv zeta. cbn [fst snd]. rewrite IH.
    rewrite <- app_assoc. reflexivity.
Qed.

Lemma binomialProbs_eq (n : Z) (p : number) :
  binomialProbs n p = map (fun k => binomialPMF n k p) (Zrange 0 n).
Proof. unfold binomialProbs, firstPass. rewrite firstPass_fold. reflexivity. Qed.

Lemma maxBinomial_eq (n : Z) (p : number) :
  maxBinomial n p
  = fold_left track_max (map (fun k => binomialPMF n k p) (Zrange 0 n)) (Num 0).
Proof. unfold maxBinomial, firstPass. rewrite firstPass_fold. reflexivity. Qed.

Lemma maxNormal_eq (n : Z) (p : number) (useProportions : bool) :
  maxNormal n p useProportions
  = fold_left track_max
      (map (fun k => normalPDF (xOf n useProportions k)
                       (meanForPDF n p useProportions)
                       (stdDevForPDF n p useProportions))
         (Zrange 0 n))
      (Num 0).
Proof. unfold maxNormal. rewrite fold_left_mapped. reflexivity. Qed.

Lemma Zrange_nth_error (lo hi : Z) (j : nat) :
  (j < Z.to_nat (hi - lo + 1))%nat ->
  nth_error (Zrange lo hi) j = Some (lo + Z.of_nat j)%Z.
Proof.
  intros Hj. unfold Zrange. rewrite nth_error_map.
  rewrite nth_error_seq. 
  replace (j <? Z.to_nat (hi - lo + 1))%nat with true
    by (symmetry; apply Nat.ltb_lt; exact Hj).
  reflexivity.
Qed.

Lemma Zrange_In (lo hi k : Z) : In k (Zrange lo hi) -> (lo <= k <= hi)%Z.
Proof.
  unfold Zrange. intros H. apply in_map_iff in H.
  destruct H as [j [<- Hj]]. apply in_seq in Hj. lia.
Qed.

Lemma array_get_binomialProbs (n : Z) (p : number) (k : Z) :
  (0 <= k <= n)%Z ->
  array_get (binomialProbs n p) k = binomialPMF n k p.
Proof.
  intros Hk. unfold array_get.
  replace (k <? 0)%Z with false by (symmetry; apply Z.ltb_ge; lia).
  apply nth_error_nth. rewrite binomialProbs_eq, nth_error_map.
  rewrite Zrange_nth_error by lia. cbn [option_map]. do 2 f_equal. lia.
Qed.

(** ** generateBinomialData: valid parameters *)

Lemma meanForPDF_closed (n : Z) (r : R) (useProportions : bool) :
  meanForPDF n (Num r) useProportions
  = Num (mean_value n r useProportions).
Proof. destruct useProportions; reflexivity. Qed.

Lemma stddev_value_pos (n : Z) (r : R) (useProportions : bool) :
  (1 <= n)%Z -> 0 < r < 1 -> 0 < stddev_value n r useProportions.
Proof.
  intros Hn Hr. apply IZR_le in Hn.
  assert (0 < r * (1 - r)) by (apply Rmult_lt_0_compat; lra).
  unfold stddev_value. destruct useProportions; apply sqrt_lt_R0.
  - apply Rdiv_lt_0_compat; lra.
  - rewrite Rmult_assoc. apply Rmult_lt_0_compat; lra.
Qed.

Lemma stdDevForPDF_closed (n : Z) (r : R) (useProportions : bool) :
  (1 <= n)%Z -> 0 < r < 1 ->
  stdDevForPDF n (Num r) useProportions
  = Num (stddev_value n r useProportions).
Proof.
  intros Hn Hr. pose proof (IZR_le _ _ Hn) as Hn'.
  assert (Hq : 0 < r * (1 - r)) by (apply Rmult_lt_0_compat; lra).
  unfold stdDevForPDF, stddev_value, ofZ. cbv zeta.
  destruct useProportions; cbn [mul sub neg add].
  - rewrite div_Num by lra. cbn [Math_sqrt].
    fold (Rminus 1 r). rewrite Rltb_false; [reflexivity |].
    apply Rlt_le. apply Rdiv_lt_0_compat; lra.
  - cbn [Math_sqrt]. fold (Rminus 1 r). rewrite Rltb_false; [reflexivity |].
    rewrite Rmult_assoc. apply Rlt_le. apply Rmult_lt_0_compat; lra.
Qed.

Lemma xOf_closed (n : Z) (useProportions : bool) (k : Z) :
  (1 <= n)%Z ->
  xOf n useProportions k = Num (x_value n useProportions k).
Proof.
  intros Hn. apply IZR_le in Hn. unfold xOf, x_value, ofZ.
  destruct useProportions; [| reflexivity].
  apply div_Num. lra.
Qed.

Lemma x_value_increasing (n : Z) (useProportions : bool) (k : Z) :
  (1 <= n)%Z ->
  x_value n useProportions k < x_value n useProportions (k + 1).
Proof.
  intros Hn. apply IZR_le in Hn. unfold x_value. rewrite plus_IZR.
  destruct useProportions; [| lra].
  unfold Rdiv. apply Rmult_lt_compat_r; [| lra].
  apply Rinv_0_lt_compat. lra.
Qed.

Lemma strictly_increasing_seq (g : nat -> number) (len : nat) :
  forall a : nat,
    (forall j, ltb (g j) (g (S j)) = true) ->
    strictly_increasing (map g (seq a len)).
Proof.
  induction len as [| len IH]; intros a Hg; [exact I |].
  cbn [seq map]. specialize (IH (S a) Hg).
  destruct len as [| len]; [exact I |].
  cbn [seq map] in *. split; [apply Hg | exact IH].
Qed.

(** C4. For [n >= 1], [p] in (0,1) and either mode, the series has
    exactly [n + 1] points with strictly increasing [x]; the point of index
    [k] has [x = k] (counts) or [x = k / n] (proportions), [y] the mass
    [binomialPMF(n, k, p)] stored by the first pass, and [normalY] the
    density [normalPDF(x_k, mean, stddev)] at the mode's parameters times
    the scale factor. *)
Theorem generateBinomialData_series (n : Z) (r : R) (useProportions : bool) :
  (1 <= n)%Z -> 0 < r < 1 ->
  let series := generateBinomialData n (Num r) useProportions in
  length series = Z.to_nat (n + 1)
  /\ strictly_increasing (map x series)
  /\ forall k : Z, (0 <= k <= n)%Z ->
       exists pt : SeriesPoint,
         nth_error series (Z.to_nat k) = Some pt
         /\ x pt = Num (x_value n useProportions k)
         /\ y pt = binomialPMF n k (Num r)
         /\ y pt = array_get (binomialProbs n (Num r)) k
         /\ normalY pt
            = (normalPDF (Num (x_value n useProportions k))
                 (Num (mean_value n r useProportions))
                 (Num (stddev_value n r useProportions))
               * scaleFactor n (Num r) useProportions)%js
         /\ label pt = if useProportions then ProportionLabel (x pt)
                       else CountLabel k.
Proof.
  intros Hn Hr series. subst series. unfold generateBinomialData. cbv zeta.
  split; [| split].
  - rewrite length_map, Zrange_length. f_equal. lia.
  - rewrite map_map. cbn [x]. unfold Zrange. rewrite map_map.
    apply strictly_increasing_seq. intros j.
    rewrite !xOf_closed by exact Hn. cbn [ltb]. apply Rltb_true.
    replace (0 + Z.of_nat (S j))%Z with (0 + Z.of_nat j + 1)%Z by lia.
    apply x_value_increasing. exact Hn.
  - intros k Hk. eexists. split.
    + rewrite nth_error_map, Zrange_nth_error by lia.
      replace (0 + Z.of_nat (Z.to_nat k))%Z with k by lia.
      cbn [option_map]. reflexivity.
    + cbn [x y normalY label].
      rewrite xOf_closed, meanForPDF_closed, stdDevForPDF_closed
        by assumption.
      rewrite array_get_binomialProbs by exact Hk.
      repeat split.
      destruct useProportions; [| reflexivity].
      unfold x_value, ofZ. rewrite div_Num; [reflexivity |].
      apply IZR_le in Hn. lra.
Qed.

Lemma generateBinomialData_series_witness :
  let series := generateBinomialData 2 (Num 0.5) false in
  length series = Z.to_nat (2 + 1)
  /\ strictly_increasing (map x series)
  /\ forall k : Z, (0 <= k <= 2)%Z ->
       exists pt : SeriesPoint,
         nth_error series (Z.to_nat k) = Some pt
         /\ x pt = Num (x_value 2 false k)
         /\ y pt = binomialPMF 2 k (Num 0.5)
         /\ y pt = array_get (binomialProbs 2 (Num 0.5)) k
         /\ normalY pt
            = (normalPDF (Num (x_value 2 false k))
                 (Num (mean_value 2 0.5 false))
                 (Num (stddev_value 2 0.5 false))
               * scaleFactor 2 (Num 0.5) false)%js
         /\ label pt = CountLabel k.
Proof. apply (generateBinomialData_series 2 0.5 false); [lia | lra]. Defined.

(** ** Maxima *)

Lemma track_max_Num (a v : R) : track_max (Num a) (Num v) = Num (Rmax a v).
Proof.
  unfold track_max. rewrite gtb_Num. unfold Rltb, Rmax.
  destruct (Rlt_dec a v), (Rle_dec a v); try reflexivity; try lra.
  f_equal. lra.
Qed.

Lemma fold_track_max_Num (l : list R) :
  forall a : R,
    fold_left track_max (map Num l) (Num a) = Num (fold_left Rmax l a).
Proof.
  induction l as [| v l IH]; intros a; [reflexivity |].
  cbn [map fold_left]. rewrite track_max_Num. apply IH.
Qed.

Lemma list_max_cons (v : R) (a : number) (tl : list number) :
  list_max (Num v :: a :: tl)
  = match list_max (a :: tl) with
    | Some m => Some (Rmax v m)
    | None => None
    end.
Proof. reflexivity. Qed.

Lemma list_max_finite (l : list R) :
  l <> [] ->
  exists M : R,
    list_max (map Num l) = Some M
    /\ In M l
    /\ forall a : R, fold_left Rmax l a = Rmax a M.
Proof.
  induction l as [| v l IH]; intros Hne; [contradiction |].
  destruct l as [| w l].
  - exists v. repeat split. left; reflexivity.
  - destruct IH as [M [HM [Hin Hfold]]]; [discriminate |].
    exists (Rmax v M). split; [| split].
    + cbn [map] in *. rewrite list_max_cons, HM. reflexivity.
    + unfold Rmax. destruct (Rle_dec v M); [right; exact Hin | left; reflexivity].
    + intros a. change (fold_left Rmax (v :: w :: l) a)
        with (fold_left Rmax (w :: l) (Rmax a v)).
      rewrite Hfold. symmetry. apply Rmax_assoc.
Qed.

Lemma list_max_scale (c : R) (l : list R) :
  0 <= c ->
  forall M : R,
    list_max (map Num l) = Some M ->
    list_max (map Num (map (fun d => d * c) l)) = Some (M * c).
Proof.
  intros Hc. induction l as [| v l IH]; intros M HM; [discriminate |].
  destruct l as [| w l].
  - cbn in HM. injection HM as <-. reflexivity.
  - cbn [map] in *. rewrite list_max_cons in HM. rewrite list_max_cons.
    destruct (list_max (Num w :: map Num l)) as [m |]; [| discriminate].
    injection HM as <-. rewrite (IH m eq_refl). f_equal.
    rewrite !(Rmult_comm _ c). apply RmaxRmult. exact Hc.
Qed.

Lemma map_Num_closed {A : Type} (f : A -> number) (g : A -> R) (l : list A) :
  (forall a, In a l -> f a = Num (g a)) ->
  map f l = map Num (map g l).
Proof. intros H. rewrite map_map. apply map_ext_in. exact H. Qed.

Lemma positive_maximum (l : list R) (M : R) :
  (forall v, In v l -> 0 < v) -> In M l -> Rmax 0 M = M.
Proof. intros Hpos Hin. apply Rmax_right. apply Rlt_le. auto. Qed.

(** On valid parameters both running maxima are positive reals, the scale
    factor is their quotient, and the scaled densities peak at the largest
    mass. *)
Lemma series_closed (n : Z) (r : R) (useProportions : bool) :
  (1 <= n)%Z -> 0 < r < 1 ->
  let series := generateBinomialData n (Num r) useProportions in
  exists Mp Mn : R,
    0 < Mp /\ 0 < Mn
    /\ maxBinomial n (Num r) = Num Mp
    /\ maxNormal n (Num r) useProportions = Num Mn
    /\ scaleFactor n (Num r) useProportions = Num (Mp / Mn)
    /\ list_max (map y series) = Some Mp
    /\ list_max (map normalY series) = Some Mp.
Proof.
  intros Hn Hr series.
  pose proof (stddev_value_pos n r useProportions Hn Hr) as Hsd.
  set (P := map (fun k => pmf_value (Z.to_nat n) r (Z.to_nat k)) (Zrange 0 n)).
  set (D := map (fun k => pdf_value (x_value n useProportions k)
                            (mean_value n r useProportions)
                            (stddev_value n r useProportions)) (Zrange 0 n)).
  assert (Hks : Zrange 0 n <> []).
  { intros E. apply (f_equal (@length Z)) in E.
    rewrite Zrange_length in E. simpl in E. lia. }
  assert (HP : map (fun k => binomialPMF n k (Num r)) (Zrange 0 n)
               = map Num P).
  { apply map_Num_closed. intros k Hk. apply Zrange_In in Hk.
    rewrite <- (Z2Nat.id n) at 1 by lia. rewrite <- (Z2Nat.id k) at 1 by lia.
    apply binomialPMF_closed. lia. }
  assert (HD : map (fun k => normalPDF (xOf n useProportions k)
                               (meanForPDF n (Num r) useProportions)
                               (stdDevForPDF n (Num r) useProportions))
                 (Zrange 0 n)
               = map Num D).
  { apply map_Num_closed. intros k _.
    rewrite xOf_closed, meanForPDF_closed, stdDevForPDF_closed by assumption.
    apply normalPDF_closed. lra. }
  assert (HPpos : forall v, In v P -> 0 < v).
  { intros v Hv. apply in_map_iff in Hv. destruct Hv as [k [<- Hk]].
    apply Zrange_In in Hk. apply pmf_value_pos; [lia | exact Hr]. }
  assert (HDpos : forall v, In v D -> 0 < v).
  { intros v Hv. apply in_map_iff in Hv. destruct Hv as [k [<- _]].
    apply pdf_value_pos. exact Hsd. }
  destruct (list_max_finite P) as [Mp [HMp [HinP HfoldP]]].
  { intros E. apply map_eq_nil in E. contradiction. }
  destruct (list_max_finite D) as [Mn [HMn [HinD HfoldD]]].
  { intros E. apply map_eq_nil in E. contradiction. }
  pose proof (HPpos Mp HinP) as HMp0. pose proof (HDpos Mn HinD) as HMn0.
  assert (HmaxB : maxBinomial n (Num r) = Num Mp).
  { rewrite maxBinomial_eq, HP, fold_track_max_Num, HfoldP.
    f_equal. apply (positive_maximum P); assumption. }
  assert (HmaxN : maxNormal n (Num r) useProportions = Num Mn).
  { rewrite maxNormal_eq, HD, fold_track_max_Num, HfoldD.
    f_equal. apply (positive_maximum D); assumption. }
  assert (Hscale : scaleFactor n (Num r) useProportions = Num (Mp / Mn)).
  { unfold scaleFactor, scaleFactorOf. rewrite HmaxB, HmaxN, !gtb_Num.
    rewrite !Rltb_true by assumption. apply div_Num. lra. }
  exists Mp, Mn. repeat split; try assumption.
  - subst series. unfold generateBinomialData. cbv zeta.
    rewrite map_map. cbn [y].
    rewrite (map_ext_in _ (fun k => binomialPMF n k (Num r))).
    + rewrite HP. exact HMp.
    + intros k Hk. apply Zrange_In in Hk.
      apply array_get_binomialProbs. exact Hk.
  - subst series. unfold generateBinomialData. cbv zeta.
    rewrite map_map. cbn [normalY]. rewrite Hscale.
    rewrite (map_Num_closed _
               (fun k => pdf_value (x_value n useProportions k)
                           (mean_value n r useProportions)
                           (stddev_value n r useProportions) * (Mp / Mn))).
    + replace (map (fun k => pdf_value (x_value n useProportions k)
                               (mean_value n r useProportions)
                               (stddev_value n r useProportions) * (Mp / Mn))
                 (Zrange 0 n))
        with (map (fun d => d * (Mp / Mn)) D)
        by (unfold D; rewrite map_map; reflexivity).
      rewrite (list_max_scale (Mp / Mn) D) with (M := Mn).
      * f_equal. field. lra.
      * apply Rlt_le. apply Rdiv_lt_0_compat; assumption.
      * exact HMn.
    + intros k _.
      rewrite xOf_closed, meanForPDF_closed, stdDevForPDF_closed by assumption.
      rewrite normalPDF_closed by lra. reflexivity.
Qed.

Lemma stdDevForPDF_degenerate : stdDevForPDF 1 (Num 0) false = Num 0.
Proof.
  unfold stdDevForPDF, ofZ. cbv zeta. cbn [mul sub neg add Math_sqrt].
  replace (1 * 0 * (1 + - 0)) with 0 by lra.
  rewrite Rltb_false, sqrt_0 by lra. reflexivity.
Qed.

Lemma maxNormal_degenerate : maxNormal 1 (Num 0) false = Num 0.
Proof.
  rewrite maxNormal_eq, stdDevForPDF_degenerate.
  change (Zrange 0 1) with [0%Z; 1%Z]. cbn [map fold_left].
  rewrite !normalPDF_zero_stdDev. reflexivity.
Qed.

(** C5. The scale factor of [generateBinomialData] is
    [maxBinomial / maxNormal] when both running maxima are strictly
    positive and 1 otherwise; with [maxNormal = 0] it is 1, a finite
    number. *)
Theorem scaleFactor_guard (n : Z) (p : number) (useProportions : bool) :
  (gtb (maxNormal n p useProportions) (Num 0) = true ->
   gtb (maxBinomial n p) (Num 0) = true ->
   scaleFactor n p useProportions
   = (maxBinomial n p / maxNormal n p useProportions)%js)
  /\ (gtb (maxNormal n p useProportions) (Num 0) = false
      \/ gtb (maxBinomial n p) (Num 0) = false ->
      scaleFactor n p useProportions = Num 1)
  /\ (maxNormal n p useProportions = Num 0 ->
      scaleFactor n p useProportions = Num 1
      /\ is_finite (scaleFactor n p useProportions)).
Proof.
  unfold scaleFactor, scaleFactorOf. split; [| split].
  - intros -> ->. reflexivity.
  - intros [-> | ->]; [reflexivity |]. rewrite andb_false_r. reflexivity.
  - intros ->. rewrite gtb_Num, Rltb_false by lra.
    split; [reflexivity | exists 1; reflexivity].
Qed.

Lemma scaleFactor_guard_witness :
  scaleFactor 2 (Num 0.5) false
  = (maxBinomial 2 (Num 0.5) / maxNormal 2 (Num 0.5) false)%js
  /\ scaleFactor 1 (Num 0) false = Num 1
  /\ (scaleFactor 1 (Num 0) false = Num 1
      /\ is_finite (scaleFactor 1 (Num 0) false)).
Proof.
  split; [| split].
  - destruct (series_closed 2 0.5 false) as [Mp [Mn [Hp [Hn [HB [HN _]]]]]];
      [lia | lra |].
    apply (proj1 (scaleFactor_guard 2 (Num 0.5) false)).
    + rewrite HN, gtb_Num. apply Rltb_true. exact Hn.
    + rewrite HB, gtb_Num. apply Rltb_true. exact Hp.
  - apply (proj1 (proj2 (scaleFactor_guard 1 (Num 0) false))).
    left. rewrite maxNormal_degenerate, gtb_Num. apply Rltb_false. lra.
  - apply (proj2 (proj2 (scaleFactor_guard 1 (Num 0) false))).
    exact maxNormal_degenerate.
Defined.

(** * Further properties *)

(** ** binomialCoefficient in binary64 *)

Lemma B64_same_eq (x y : B64.f64) : B64.same x y = true -> x = y.
Proof.
  destruct x as [a | a | | a m e], y as [b | b | | b m' e'];
    cbn [B64.same]; try discriminate; intros H.
  - apply Bool.eqb_prop in H. subst. reflexivity.
  - apply Bool.eqb_prop in H. subst. reflexivity.
  - reflexivity.
  - apply andb_true_iff in H. destruct H as [H He].
    apply andb_true_iff in H. destruct H as [Hs Hm].
    apply Bool.eqb_prop in Hs. apply Pos.eqb_eq in Hm. apply Z.eqb_eq in He.
    subst. reflexivity.
Qed.

Lemma exact_rows_to_54 : forallb exact_row (Zrange 0 54) = true.
Proof. vm_compute. reflexivity. Qed.

Lemma B64_inexact_55_26 :
  B64.binomialCoefficient 55 26 = B64.pred (B64.ofZ (Zbinomial 55 26)).
Proof. vm_compute. reflexivity. Qed.

(** X1. In binary64, [binomialCoefficient(n, k)] is exactly the integer
    [n! / (k! (n - k)!)] for all [0 <= k <= n <= 54].  The bound is sharp:
    [binomialCoefficient(55, 26)] is the binary64 value just below the
    integer 3560597348629860. *)
Theorem binomialCoefficient_exact_to_54 (n k : Z) :
  ((0 <= k <= n)%Z -> (n <= 54)%Z ->
   (Zbinomial n k < 9007199254740992)%Z
   /\ B64.binomialCoefficient n k = B64.ofZ (Zbinomial n k))
  /\ (Zbinomial 55 26 = 3560597348629860)%Z
  /\ B64.binomialCoefficient 55 26 = B64.pred (B64.ofZ 3560597348629860).
Proof.
  split; [| split; [vm_compute; reflexivity | exact B64_inexact_55_26]].
  intros Hk Hn.
  pose proof exact_rows_to_54 as H.
  rewrite forallb_forall in H.
  specialize (H n (Zrange_In_inv 0 54 n ltac:(lia))).
  unfold exact_row in H. rewrite forallb_forall in H.
  specialize (H k (Zrange_In_inv 0 n k Hk)).
  apply andb_true_iff in H. destruct H as [Hlt Hsame].
  split; [apply Z.ltb_lt; exact Hlt | apply B64_same_eq; exact Hsame].
Qed.

Lemma binomialCoefficient_exact_to_54_witness :
  (Zbinomial 50 25 < 9007199254740992)%Z
  /\ B64.binomialCoefficient 50 25 = B64.ofZ (Zbinomial 50 25).
Proof. apply (proj1 (binomialCoefficient_exact_to_54 50 25)); lia. Defined.

Lemma loop_trace_In (n : Z) (steps : nat) :
  forall (j : nat) (i : Z) (r : B64.f64),
    (j <= steps)%nat ->
    In (B64.binomialCoefficient_loop n j i r) (B64.loop_trace n steps i r).
Proof.
  induction steps as [| s IH]; intros j i r Hj.
  - replace j with 0%nat by lia. left. reflexivity.
  - destruct j as [| j].
    + left. reflexivity.
    + right. cbn [B64.binomialCoefficient_loop]. apply IH. lia.
Qed.

Lemma finite_rows_to_200 : forallb finite_row (Zrange 0 200) = true.
Proof. vm_compute. reflexivity. Qed.

(** X2. In binary64, for every trial count the slider can produce
    ([0 <= n <= 200]) and every [k], [binomialCoefficient(n, k)] is finite:
    no intermediate product overflows.  At [n = 1021] one does:
    [binomialCoefficient(1021, 510)] is [+Infinity] although the
    coefficient itself is below 2^1016. *)
Theorem binomialCoefficient_finite_to_200 (n k : Z) :
  ((0 <= n <= 200)%Z ->
   B64.is_finite (B64.binomialCoefficient n k) = true)
  /\ B64.binomialCoefficient 1021 510 = S754_infinity false
  /\ (Zbinomial 1021 510 < 2 ^ 1016)%Z.
Proof.
  split; [| split; [exact B64_overflow_1021 |
                    apply Z.ltb_lt; vm_compute; reflexivity]].
  intros Hn. unfold B64.binomialCoefficient.
  destruct ((k <? 0) || (k >? n))%Z eqn:Hout; [reflexivity |].
  destruct ((k =? 0) || (k =? n))%Z eqn:Hend; [reflexivity |].
  cbv zeta.
  apply orb_false_iff in Hout. destruct Hout as [H0 H1].
  apply Z.ltb_ge in H0. assert (Hkn : (k <= n)%Z) by lia.
  pose proof finite_rows_to_200 as H.
  rewrite forallb_forall in H.
  specialize (H n (Zrange_In_inv 0 200 n Hn)).
  unfold finite_row in H. rewrite forallb_forall in H.
  apply H. apply loop_trace_In.
  assert (Hhalf : (Z.min k (n - k) <= n / 2)%Z).
  { apply Z.div_le_lower_bound; lia. }
  lia.
Qed.

Lemma binomialCoefficient_finite_to_200_witness :
  B64.is_finite (B64.binomialCoefficient 200 100) = true.
Proof. apply (proj1 (binomialCoefficient_finite_to_200 200 100)). lia. Defined.

(** ** binomialSum over sub-ranges *)

Lemma Rsum_app (l1 l2 : list R) : Rsum (l1 ++ l2) = Rsum l1 + Rsum l2.
Proof.
  unfold Rsum. induction l1 as [| v l1 IH]; cbn [app fold_right].
  - lra.
  - rewrite IH. lra.
Qed.

Lemma map_seq_from (A : Type) (len : nat) :
  forall (a : nat) (f : nat -> A),
    map f (seq a len) = map (fun j => f (a + j)%nat) (seq 0 len).
Proof.
  induction len as [| len IH]; intros a f; [reflexivity |].
  cbn [seq map]. rewrite Nat.add_0_r. f_equal.
  rewrite (IH (S a) f), (IH 1%nat (fun j => f (a + j)%nat)).
  apply map_ext. intros j. f_equal. lia.
Qed.

Lemma Zrange_split (lo m hi : Z) :
  (lo <= m + 1)%Z -> (m <= hi)%Z ->
  Zrange lo hi = Zrange lo m ++ Zrange (m + 1) hi.
Proof.
  intros Hlo Hhi. unfold Zrange.
  replace (Z.to_nat (hi - lo + 1))
    with (Z.to_nat (m - lo + 1) + Z.to_nat (hi - (m + 1) + 1))%nat by lia.
  rewrite seq_app, map_app. f_equal.
  rewrite map_seq_from. apply map_ext_in. intros j Hj.
  apply in_seq in Hj. lia.
Qed.

Lemma binomialPMF_closed_Z (n k : Z) (r : R) :
  (0 <= k <= n)%Z ->
  binomialPMF n k (Num r) = Num (pmf_value (Z.to_nat n) r (Z.to_nat k)).
Proof.
  intros Hk.
  rewrite <- (Z2Nat.id n) at 1 by lia. rewrite <- (Z2Nat.id k) at 1 by lia.
  apply binomialPMF_closed. lia.
Qed.

Lemma sum_fold_closed (n : Z) (r : R) (ks : list Z) :
  (forall k, In k ks -> (0 <= k <= n)%Z) ->
  forall a : R,
    fold_left (fun sum k => (sum + binomialPMF n k (Num r))%js) ks (Num a)
    = Num (a + Rsum (masses n r ks)).
Proof.
  induction ks as [| k ks IH]; intros Hks a.
  - cbn. f_equal. lra.
  - cbn [fold_left masses map Rsum fold_right].
    assert (Hk : (0 <= k <= n)%Z) by (apply Hks; left; reflexivity).
    rewrite binomialPMF_closed_Z by exact Hk.
    cbn [add]. rewrite IH by (intros k' Hk'; apply Hks; right; exact Hk').
    f_equal. unfold masses, Rsum. lra.
Qed.

Lemma binomialSum_closed (n : Z) (r : R) (a b : R) :
  binomialSum n (Num r) a b
  = Num (Rsum (masses n r
                 (Zrange (Z.max 0 (Math_floor a)) (Z.min n (Math_floor b))))).
Proof.
  unfold binomialSum. rewrite sum_fold_closed.
  - f_equal. lra.
  - intros k Hk. apply Zrange_In in Hk. lia.
Qed.

Lemma masses_nonneg (n : Z) (r : R) (ks : list Z) :
  0 < r < 1 ->
  (forall k, In k ks -> (0 <= k <= n)%Z) ->
  0 <= Rsum (masses n r ks).
Proof.
  intros Hr. induction ks as [| k ks IH]; intros Hks.
  - cbn. lra.
  - cbn [masses map Rsum fold_right].
    assert (Hk : (0 <= k <= n)%Z) by (apply Hks; left; reflexivity).
    pose proof (pmf_value_pos (Z.to_nat n) (Z.to_nat k) r ltac:(lia) Hr).
    pose proof (IH (fun k' Hk' => Hks k' (or_intror Hk'))) as Hrest.
    unfold masses, Rsum in Hrest. lra.
Qed.

Lemma masses_total (n : Z) (r : R) :
  (0 <= n)%Z -> Rsum (masses n r (Zrange 0 n)) = 1.
Proof.
  intros Hn.
  pose proof (binomialSum_full_range (Z.to_nat n) r) as H.
  rewrite Z2Nat.id in H by lia.
  rewrite binomialSum_closed in H.
  change 0 with (IZR 0) in H at 1. rewrite !Math_floor_IZR in H.
  rewrite Z.max_id, Z.min_id in H. injection H as H. exact H.
Qed.

Lemma range_mass_bounds (n : Z) (r : R) (s e : Z) :
  (0 <= n)%Z -> 0 < r < 1 -> (0 <= s)%Z -> (e <= n)%Z ->
  0 <= Rsum (masses n r (Zrange s e)) <= 1.
Proof.
  intros Hn Hr Hs He.
  destruct (Z_lt_le_dec e s) as [Hlt | Hle].
  - rewrite Zrange_empty by exact Hlt. cbn. lra.
  - pose proof (masses_total n r Hn) as Htot.
    rewrite (Zrange_split 0 (s - 1) n) in Htot by lia.
    replace (s - 1 + 1)%Z with s in Htot by lia.
    rewrite (Zrange_split s e n) in Htot by lia.
    unfold masses in Htot. rewrite !map_app, !Rsum_app in Htot.
    fold (masses n r (Zrange 0 (s - 1))) in Htot.
    fold (masses n r (Zrange s e)) in Htot.
    fold (masses n r (Zrange (e + 1) n)) in Htot.
    pose proof (masses_nonneg n r (Zrange 0 (s - 1)) Hr) as H1.
    pose proof (masses_nonneg n r (Zrange s e) Hr) as H2.
    pose proof (masses_nonneg n r (Zrange (e + 1) n) Hr) as H3.
    assert (0 <= Rsum (masses n r (Zrange 0 (s - 1))))
      by (apply H1; intros k Hk; apply Zrange_In in Hk; lia).
    assert (0 <= Rsum (masses n r (Zrange s e)))
      by (apply H2; intros k Hk; apply Zrange_In in Hk; lia).
    assert (0 <= Rsum (masses n r (Zrange (e + 1) n)))
      by (apply H3; intros k Hk; apply Zrange_In in Hk; lia).
    lra.
Qed.

(** ** erf and normalCDF: range *)

Lemma exp_le_1 (v : R) : v <= 0 -> exp v <= 1.
Proof.
  intros [Hlt | ->].
  - rewrite <- exp_0. apply Rlt_le. apply exp_increasing. exact Hlt.
  - rewrite exp_0. lra.
Qed.

Lemma erf_polynomial_bounds (t : R) :
  0 < t <= 1 ->
  0 < ((((1.061405429 * t + -1.453152027) * t + 1.421413741) * t
        + -0.284496736) * t + 0.254829592) * t < 1.
Proof.
  intros Ht. split.
  - assert (0 < (((1.061405429 * t + -1.453152027) * t + 1.421413741) * t
                 + -0.284496736) * t + 0.254829592) by nra.
    nra.
  - set (s := 0.999999999 + 0.745170407 * t + 1.029667143 * (t * t)
              - 0.391746598 * (t * t * t) + 1.061405429 * (t * t * t * t)).
    assert (Hs : 0 < s).
    { assert (t * t * t <= t * t) by nra.
      assert (0 <= t * t * t * t) by nra.
      assert (0 <= t * t) by nra.
      subst s. nra. }
    replace (((((1.061405429 * t + -1.453152027) * t + 1.421413741) * t
               + -0.284496736) * t + 0.254829592) * t)
      with (0.999999999 - (1 - t) * s) by (subst s; nra).
    nra.
Qed.

Lemma erf_magnitude_bounds (u : R) : 0 <= u -> 0 < erf_magnitude u < 1.
Proof.
  intros Hu. unfold erf_magnitude. cbv zeta.
  set (t := 1.0 / (1.0 + 0.3275911 * u)).
  assert (Hd : 1 <= 1.0 + 0.3275911 * u) by nra.
  assert (Ht : 0 < t <= 1).
  { assert (Htd : t * (1.0 + 0.3275911 * u) = 1) 
      by (subst t; unfold Rdiv; rewrite Rmult_assoc, Rinv_l by lra; lra).
    assert (0 < t) by (subst t; apply Rdiv_lt_0_compat; lra).
    split; [assumption | nra]. }
  pose proof (erf_polynomial_bounds t Ht) as Hq.
  pose proof (exp_pos (- u * u)) as He.
  assert (He1 : exp (- u * u) <= 1) by (apply exp_le_1; nra).
  set (q := ((((1.061405429 * t + -1.453152027) * t + 1.421413741) * t
              + -0.284496736) * t + 0.254829592) * t) in *.
  set (E := exp (- u * u)) in *.
  assert (0 < q * E) by (apply Rmult_lt_0_compat; lra).
  assert (q * E < 1) by nra.
  lra.
Qed.

(** X8. For every real [x], [erf(x)] is a finite number between -1 and 1;
    it is positive for [x >= 0] (also at 0) and negative for [x < 0]. *)
Theorem erf_range (u : R) :
  exists v : R,
    erf (Num u) = Num v
    /\ -1 <= v <= 1
    /\ (0 <= u -> 0 < v)
    /\ (u < 0 -> v < 0).
Proof.
  rewrite erf_closed. eexists. split; [reflexivity |].
  pose proof (erf_magnitude_bounds (Rabs u) (Rabs_pos u)) as Hm.
  destruct (Rlt_dec u 0) as [Hneg | Hpos].
  - rewrite Rltb_true by exact Hneg. repeat split; intros; lra.
  - rewrite Rltb_false by lra. repeat split; intros; lra.
Qed.

Lemma Math_sqrt_2 : Math_sqrt (Num 2) = Num (sqrt 2).
Proof. cbn [Math_sqrt]. rewrite Rltb_false by lra. reflexivity. Qed.

Lemma sqrt_2_pos : 0 < sqrt 2.
Proof. apply sqrt_lt_R0. lra. Qed.

Lemma normalCDF_closed (u m s : R) :
  s <> 0 -> normalCDF (Num u) (Num m) (Num s) = Num (cdf_value u m s).
Proof.
  intros Hs. unfold normalCDF. rewrite Math_sqrt_2.
  pose proof sqrt_2_pos as H2.
  cbn [mul sub neg add]. rewrite div_Num.
  - rewrite erf_closed. cbn [mul add]. unfold cdf_value, Rminus. reflexivity.
  - apply Rmult_integral_contrapositive_currified; lra.
Qed.

Lemma cdf_value_range (u m s : R) : 0 < cdf_value u m s < 1.
Proof.
  unfold cdf_value. cbv zeta.
  set (z := (u - m) / (s * sqrt 2)).
  pose proof (erf_magnitude_bounds (Rabs z) (Rabs_pos z)) as Hm.
  destruct (Rltb z 0); lra.
Qed.

(** X9. For [x], [mean] and [stdDev] of magnitude at most 1e300 and
    [stdDev <> 0], [normalCDF] returns a finite number between 0 and 1. *)
Theorem normalCDF_range (u m s : R) :
  Rabs u <= 1e300 -> Rabs m <= 1e300 -> Rabs s <= 1e300 -> s <> 0 ->
  exists v : R, normalCDF (Num u) (Num m) (Num s) = Num v /\ 0 <= v <= 1.
Proof.
  intros _ _ _ Hs. rewrite normalCDF_closed by exact Hs.
  eexists. split; [reflexivity |].
  pose proof (cdf_value_range u m s). lra.
Qed.

Lemma normalCDF_range_witness :
  exists v : R, normalCDF (Num 27) (Num 25) (Num 3.5) = Num v /\ 0 <= v <= 1.
Proof.
  apply (normalCDF_range 27 25 3.5);
    try (apply Rabs_le; split; lra); lra.
Defined.

(** X10. For finite [mean] and finite [stdDev <> 0], [normalCDF] at the
    mean returns [0.5000000005] rather than 0.5: there the argument of
    [erf] is 0, and the approximation gives [erf(0) = 1e-9]. *)
Theorem normalCDF_at_mean (m s : R) :
  s <> 0 -> normalCDF (Num m) (Num m) (Num s) = Num 0.5000000005.
Proof.
  intros Hs. rewrite normalCDF_closed by exact Hs.
  f_equal. unfold cdf_value. cbv zeta.
  replace ((m - m) / (s * sqrt 2)) with 0
    by (unfold Rdiv; rewrite Rminus_diag, Rmult_0_l; reflexivity).
  rewrite Rltb_false, Rabs_R0, erf_magnitude_0 by lra. lra.
Qed.

Lemma normalCDF_at_mean_witness :
  normalCDF (Num 25) (Num 25) (Num 3.5) = Num 0.5000000005.
Proof. apply (normalCDF_at_mean 25 3.5). lra. Defined.

Lemma scale_inf_true_pos (r : R) : 0 < r -> scale_inf true r = PInf.
Proof.
  intros H. unfold scale_inf.
  rewrite Reqb_false, Rltb_true by lra. reflexivity.
Qed.

Lemma scale_inf_true_neg (r : R) : r < 0 -> scale_inf true r = NInf.
Proof.
  intros H. unfold scale_inf.
  rewrite Reqb_false, Rltb_false by lra. reflexivity.
Qed.

Lemma erf_PInf : erf PInf = Num 1.
Proof.
  unfold erf. cbv zeta. cbn [ltb Math_abs mul].
  rewrite scale_inf_true_pos by lra.
  cbn [add div mul neg Math_exp sub]. f_equal. lra.
Qed.

Lemma erf_NInf : erf NInf = Num (-1).
Proof.
  unfold erf. cbv zeta. cbn [ltb Math_abs mul].
  rewrite scale_inf_true_pos by lra.
  cbn [add div mul neg Math_exp sub]. f_equal. lra.
Qed.

Lemma erf_NaN : erf NaN = NaN.
Proof. reflexivity. Qed.

(** X11. [erf] at the non-finite arguments: 1 at [+Infinity], -1 at
    [-Infinity], [NaN] at [NaN]. *)
Theorem erf_non_finite :
  erf PInf = Num 1 /\ erf NInf = Num (-1) /\ erf NaN = NaN.
Proof. exact (conj erf_PInf (conj erf_NInf erf_NaN)). Qed.

(** ** normalIntegral *)

(** X12. For [a], [mean] and [stdDev] of magnitude at most 1e300 and
    [stdDev <> 0], [normalIntegral] over the empty interval [a, a] is
    exactly 0. *)
Theorem normalIntegral_empty_interval (a m s : R) :
  Rabs a <= 1e300 -> Rabs m <= 1e300 -> Rabs s <= 1e300 -> s <> 0 ->
  normalIntegral (Num a) (Num a) (Num m) (Num s) = Num 0.
Proof.
  intros _ _ _ Hs. unfold normalIntegral.
  rewrite !normalCDF_closed by exact Hs.
  cbn [sub neg add]. f_equal. lra.
Qed.

Lemma normalIntegral_empty_interval_witness :
  normalIntegral (Num 20) (Num 20) (Num 25) (Num 3.5) = Num 0.
Proof.
  apply (normalIntegral_empty_interval 20 25 3.5);
    try (apply Rabs_le; split; lra); lra.
Defined.

(** ** The page component: the selected range *)

Lemma Math_round_bounds (lo hi : Z) (v : R) :
  IZR lo <= v <= IZR hi -> (lo <= Math_round v <= hi)%Z.
Proof.
  intros [Hlo Hhi]. unfold Math_round.
  assert (Hl : Math_floor (IZR lo + 0.5) = lo)
    by (apply Math_floor_unique; lra).
  assert (Hh : Math_floor (IZR hi + 0.5) = hi)
    by (apply Math_floor_unique; lra).
  pose proof (Math_floor_monotone (IZR lo + 0.5) (v + 0.5) ltac:(lra)) as H1.
  pose proof (Math_floor_monotone (v + 0.5) (IZR hi + 0.5) ltac:(lra)) as H2.
  unfold Math_floor in *. lia.
Qed.

Lemma rangeEffect_range (s : Home.State) :
  (1 <= Home.n s)%Z -> (0 <= Home.xMin s < Home.xMax s)%Z ->
  (0 <= Home.xMin (Home.rangeEffect s))%Z
  /\ (Home.xMin (Home.rangeEffect s) < Home.xMax (Home.rangeEffect s))%Z
  /\ (Home.xMax (Home.rangeEffect s) <= Home.n s)%Z.
Proof.
  intros Hn Hx. cbn [Home.rangeEffect Home.xMin Home.xMax].
  destruct (Z.geb_spec (Home.xMin s) (Home.n s)),
           (Z.gtb_spec (Home.xMax s) (Home.n s)); lia.
Qed.

Lemma rangeEffect_fixed (s : Home.State) :
  (Home.xMin s < Home.n s)%Z -> (Home.xMax s <= Home.n s)%Z ->
  Home.rangeEffect s = s.
Proof.
  intros H1 H2. destruct s as [v n p lo hi up].
  cbn [Home.xMin Home.xMax Home.n] in *. unfold Home.rangeEffect.
  cbn [Home.xMin Home.xMax Home.n Home.activeView Home.p Home.useProportions].
  destruct (Z.geb_spec lo n), (Z.gtb_spec hi n); try lia. reflexivity.
Qed.

(** X16. The effect that follows a change of [n] repairs the selected
    range: from any state with [n >= 1] and [0 <= xMin < xMax] it yields
    [0 <= xMin < xMax <= n], leaving [n], [p] and the mode alone; it
    changes nothing when the range already fits, and running it twice is
    the same as running it once. *)
Theorem rangeEffect_repairs (s : Home.State) :
  (1 <= Home.n s)%Z -> (0 <= Home.xMin s < Home.xMax s)%Z ->
  let s' := Home.rangeEffect s in
  ((0 <= Home.xMin s')%Z /\ (Home.xMin s' < Home.xMax s')%Z
   /\ (Home.xMax s' <= Home.n s')%Z)
  /\ (Home.n s' = Home.n s /\ Home.p s' = Home.p s
      /\ Home.useProportions s' = Home.useProportions s)
  /\ ((Home.xMax s <= Home.n s)%Z -> s' = s)
  /\ Home.rangeEffect s' = s'.
Proof.
  intros Hn Hx s'. subst s'.
  pose proof (rangeEffect_range s Hn Hx) as [H0 [H1 H2]].
  split; [| split; [| split]].
  - repeat split; assumption.
  - repeat split.
  - intros Hfit. apply rangeEffect_fixed; lia.
  - apply rangeEffect_fixed; cbn [Home.rangeEffect Home.n] in *; lia.
Qed.

Lemma rangeEffect_repairs_witness :
  let s' := Home.rangeEffect (Home.onNChange 10 Home.initial) in
  ((0 <= Home.xMin s')%Z /\ (Home.xMin s' < Home.xMax s')%Z
   /\ (Home.xMax s' <= Home.n s')%Z)
  /\ (Home.n s' = Home.n (Home.onNChange 10 Home.initial)
      /\ Home.p s' = Home.p (Home.onNChange 10 Home.initial)
      /\ Home.useProportions s'
         = Home.useProportions (Home.onNChange 10 Home.initial))
  /\ ((Home.xMax (Home.onNChange 10 Home.initial)
       <= Home.n (Home.onNChange 10 Home.initial))%Z ->
      s' = Home.onNChange 10 Home.initial)
  /\ Home.rangeEffect s' = s'.
Proof.
  assert (H10 : Math_round 10 = 10%Z)
    by (apply (Math_floor_unique (10 + 0.5) 10); lra).
  apply (rangeEffect_repairs (Home.onNChange 10 Home.initial)).
  - cbn [Home.onNChange Home.n]. rewrite H10. lia.
  - cbn [Home.onNChange Home.xMin Home.xMax Home.initial]. lia.
Defined.

Lemma reachable_invariant (s : Home.State) :
  Home.reachable s ->
  Home.range_ok s
  /\ exists r : R, Home.p s = Num r /\ 0.01 <= r <= 0.99.
Proof.
  induction 1 as [| s e Hreach [Hok [r [Hp Hr]]] Hb].
  - split; [unfold Home.range_ok; cbn; lia |].
    exists 0.5. split; [reflexivity | lra].
  - destruct Hok as [Hn [H0 [Hlt Hle]]].
    destruct e as [v | v | v | v | c | | view]; cbn [Home.in_bounds] in Hb.
    + pose proof (Math_round_bounds 1 200 v Hb) as Hv.
      cbn [Home.handle]. cbv zeta.
      set (s1 := Home.onNChange v s).
      assert (Hs1 : Home.range_ok (Home.rangeEffect s1)
                    /\ exists r0, Home.p (Home.rangeEffect s1) = Num r0
                                  /\ 0.01 <= r0 <= 0.99).
      { destruct (rangeEffect_range s1) as [A [B C]].
        - subst s1. cbn [Home.onNChange Home.n]. lia.
        - subst s1. cbn [Home.onNChange Home.xMin Home.xMax]. lia.
        - split.
          + unfold Home.range_ok. cbn [Home.rangeEffect Home.n] in *.
            subst s1. cbn [Home.onNChange Home.n] in *.
            repeat split; try lia; assumption.
          + exists r. split; [exact Hp | exact Hr]. }
      destruct (Z.eqb_spec (Home.n s1) (Home.n s)) as [Heq | Hne];
        [| exact Hs1].
      rewrite <- (rangeEffect_fixed s1); [exact Hs1 | |];
        subst s1; cbn [Home.onNChange Home.n Home.xMin Home.xMax] in *; lia.
    + split; [exact (conj Hn (conj H0 (conj Hlt Hle))) |].
      exists v. split; [reflexivity | exact Hb].
    + pose proof (Math_round_bounds 0 (Home.n s) v Hb) as Hv.
      split; [| exists r; split; assumption].
      unfold Home.range_ok.
      cbn [Home.handle Home.onXMinChange Home.n Home.xMin Home.xMax]. lia.
    + pose proof (Math_round_bounds 0 (Home.n s) v Hb) as Hv.
      split; [| exists r; split; assumption].
      unfold Home.range_ok.
      cbn [Home.handle Home.onXMaxChange Home.n Home.xMin Home.xMax]. lia.
    + split; [exact (conj Hn (conj H0 (conj Hlt Hle))) |].
      exists r; split; assumption.
    + split; [exact (conj Hn (conj H0 (conj Hlt Hle))) |].
      exists r; split; assumption.
    + split; [exact (conj Hn (conj H0 (conj Hlt Hle))) |].
      exists r; split; assumption.
Qed.

(** X17. Every state the page can settle in, starting from the initial
    state and handling slider, switch and navigation events within the
    sliders' bounds, satisfies [1 <= n <= 200], [0 <= xMin < xMax <= n]
    and has a finite [p] with [0.01 <= p <= 0.99]. *)
Theorem reachable_range_ok (s : Home.State) :
  Home.reachable s ->
  Home.range_ok s
  /\ exists r : R, Home.p s = Num r /\ 0.01 <= r <= 0.99.
Proof. exact (reachable_invariant s). Qed.

Lemma reachable_range_ok_witness :
  Home.range_ok (Home.handle (Home.XMaxSlider 3) Home.initial)
  /\ exists r : R,
       Home.p (Home.handle (Home.XMaxSlider 3) Home.initial) = Num r
       /\ 0.01 <= r <= 0.99.
Proof.
  apply (reachable_range_ok (Home.handle (Home.XMaxSlider 3) Home.initial)).
  apply Home.reach_step; [apply Home.reach_initial |].
  cbn. lra.
Defined.

(** ** The page component: displayed values *)

Lemma Home_mu_eq (s : Home.State) :
  Home.mu s = meanForPDF (Home.n s) (Home.p s) (Home.useProportions s).
Proof. unfold Home.mu, meanForPDF. destruct (Home.useProportions s); reflexivity. Qed.

Lemma Home_sigma_eq (s : Home.State) :
  Home.sigma s = stdDevForPDF (Home.n s) (Home.p s) (Home.useProportions s).
Proof.
  unfold Home.sigma, stdDevForPDF. destruct (Home.useProportions s); reflexivity.
Qed.

Lemma normalIntegralValue_closed (s : Home.State) (r : R) :
  (1 <= Home.n s)%Z -> Home.p s = Num r -> 0 < r < 1 ->
  Home.normalIntegralValue s
  = Num (cdf_value (x_value (Home.n s) (Home.useProportions s) (Home.xMax s))
           (mean_value (Home.n s) r (Home.useProportions s))
           (stddev_value (Home.n s) r (Home.useProportions s))
         - cdf_value (x_value (Home.n s) (Home.useProportions s) (Home.xMin s))
             (mean_value (Home.n s) r (Home.useProportions s))
             (stddev_value (Home.n s) r (Home.useProportions s))).
Proof.
  intros Hn Hp Hr.
  pose proof (stddev_value_pos (Home.n s) r (Home.useProportions s) Hn Hr).
  unfold Home.normalIntegralValue, normalIntegral.
  rewrite Home_mu_eq, Home_sigma_eq, Hp.
  change (Home.xMaxScaled s)
    with (xOf (Home.n s) (Home.useProportions s) (Home.xMax s)).
  change (Home.xMinScaled s)
    with (xOf (Home.n s) (Home.useProportions s) (Home.xMin s)).
  rewrite !xOf_closed, meanForPDF_closed, stdDevForPDF_closed by assumption.
  rewrite !normalCDF_closed by lra. reflexivity.
Qed.

(** X19. In every state the page can settle in, the values it displays
    are well defined: [sigma] is a finite positive number, the binomial
    sum over the selected range is a finite number between 0 and
    [1 + 1e-9], and the normal integral over it is a finite number between
    -1 and 1.  No reachable state feeds a zero deviation to the Gaussian
    functions. *)
Theorem reachable_display_finite (s : Home.State) :
  Home.reachable s ->
  exists sd v w : R,
    Home.sigma s = Num sd /\ 0 < sd
    /\ Home.binomialDiscreteSum s = Num v /\ 0 <= v <= 1 + 1e-9
    /\ Home.normalIntegralValue s = Num w /\ -1 <= w <= 1.
Proof.
  intros Hreach.
  destruct (reachable_invariant s Hreach)
    as [[Hn [H0 [Hlt Hle]]] [r [Hp Hr]]].
  assert (Hr' : 0 < r < 1) by lra.
  assert (Hn' : (1 <= Home.n s)%Z) by lia.
  eexists _, _, _. split; [| split; [| split; [| split; [| split]]]].
  - rewrite Home_sigma_eq, Hp. apply stdDevForPDF_closed; assumption.
  - apply stddev_value_pos; assumption.
  - unfold Home.binomialDiscreteSum. rewrite Hp, binomialSum_closed.
    rewrite !Math_floor_IZR. reflexivity.
  - pose proof (range_mass_bounds (Home.n s) r
                  (Z.max 0 (Home.xMin s)) (Z.min (Home.n s) (Home.xMax s))
                  ltac:(lia) Hr' ltac:(lia) ltac:(lia)).
    lra.
  - apply (normalIntegralValue_closed s r); assumption.
  - pose proof (cdf_value_range
                  (x_value (Home.n s) (Home.useProportions s) (Home.xMax s))
                  (mean_value (Home.n s) r (Home.useProportions s))
                  (stddev_value (Home.n s) r (Home.useProportions s))).
    pose proof (cdf_value_range
                  (x_value (Home.n s) (Home.useProportions s) (Home.xMin s))
                  (mean_value (Home.n s) r (Home.useProportions s))
                  (stddev_value (Home.n s) r (Home.useProportions s))).
    lra.
Qed.

Lemma reachable_display_finite_witness :
  exists sd v w : R,
    Home.sigma (Home.handle (Home.PSlider 0.3) Home.initial) = Num sd
    /\ 0 < sd
    /\ Home.binomialDiscreteSum (Home.handle (Home.PSlider 0.3) Home.initial)
       = Num v
    /\ 0 <= v <= 1 + 1e-9
    /\ Home.normalIntegralValue (Home.handle (Home.PSlider 0.3) Home.initial)
       = Num w
    /\ -1 <= w <= 1.
Proof.
  apply (reachable_display_finite (Home.handle (Home.PSlider 0.3) Home.initial)).
  apply Home.reach_step; [apply Home.reach_initial |].
  cbn. lra.
Defined.

(** ** Edge behaviour *)

Lemma mul_NaN_r (a : number) : (a * NaN)%js = NaN.
Proof. destruct a; reflexivity. Qed.

Lemma normalPDF_NaN_x (mean stdDev : number) : normalPDF NaN mean stdDev = NaN.
Proof.
  unfold normalPDF. cbv zeta.
  replace ((NaN - mean) / stdDev)%js with NaN by (destruct mean; reflexivity).
  change (Math_pow NaN 2) with NaN. cbn [mul Math_exp]. apply mul_NaN_r.
Qed.

(** X20. [normalPDF] returns [NaN] as soon as one of its arguments is
    [NaN], whatever the other two are. *)
Theorem normalPDF_NaN (x mean stdDev : number) :
  normalPDF NaN mean stdDev = NaN
  /\ normalPDF x NaN stdDev = NaN
  /\ normalPDF x mean NaN = NaN.
Proof.
  split; [apply normalPDF_NaN_x | split].
  - unfold normalPDF. cbv zeta.
    replace ((x - NaN) / stdDev)%js with NaN by (destruct x; reflexivity).
    change (Math_pow NaN 2) with NaN. cbn [mul Math_exp]. apply mul_NaN_r.
  - reflexivity.
Qed.

Lemma binomialPMF_0_0 (p : number) : binomialPMF 0 0 p = Num 1.
Proof.
  unfold binomialPMF. cbn [Z.ltb Z.gtb Z.compare orb Z.sub Z.opp Z.add].
  change (binomialCoefficient 0 0) with (Num 1).
  change (Math_pow p 0) with (Num 1).
  change (Math_pow (Num 1 - p) 0) with (Num 1).
  cbn [mul]. f_equal. lra.
Qed.

Lemma stdDevForPDF_zero_trials (r : R) :
  stdDevForPDF 0 (Num r) false = Num 0.
Proof.
  unfold stdDevForPDF, ofZ. cbv zeta. cbn [mul sub neg add Math_sqrt].
  replace (0 * r * (1 + - r)) with 0 by lra.
  rewrite Rltb_false, sqrt_0 by lra. reflexivity.
Qed.

(** X21. Degenerate trial counts, which the function accepts although the
    slider never produces them.  For [n < 0] the series is empty.  For
    [n = 0] and finite [p] it has a single point with [y = 1] and
    [normalY = NaN] (the deviation is 0 in counts mode, and [x = 0/0] is
    [NaN] in proportions mode), and the scale factor falls back to 1. *)
Theorem generateBinomialData_degenerate (n : Z) (r : R) (p : number)
    (useProportions : bool) :
  ((n < 0)%Z -> generateBinomialData n p useProportions = [])
  /\ generateBinomialData 0 (Num r) useProportions
     = [ {| x := if useProportions then NaN else Num 0;
            y := Num 1;
            normalY := NaN;
            label := if useProportions then ProportionLabel NaN
                     else CountLabel 0 |} ]
  /\ scaleFactor 0 (Num r) useProportions = Num 1.
Proof.
  assert (Hpdf : normalPDF (xOf 0 useProportions 0)
                   (meanForPDF 0 (Num r) useProportions)
                   (stdDevForPDF 0 (Num r) useProportions) = NaN).
  { destruct useProportions.
    - unfold xOf, ofZ. cbn [div]. rewrite Reqb_true by reflexivity.
      unfold scale_inf. rewrite Reqb_true by reflexivity.
      apply normalPDF_NaN_x.
    - rewrite stdDevForPDF_zero_trials. apply normalPDF_zero_stdDev. }
  assert (Hmax : maxNormal 0 (Num r) useProportions = Num 0).
  { rewrite maxNormal_eq. change (Zrange 0 0) with [0%Z].
    cbn [map fold_left]. rewrite Hpdf. reflexivity. }
  assert (Hscale : scaleFactor 0 (Num r) useProportions = Num 1).
  { unfold scaleFactor, scaleFactorOf. rewrite Hmax, gtb_Num.
    rewrite Rltb_false by lra. reflexivity. }
  split; [| split; [| exact Hscale]].
  - intros Hn. unfold generateBinomialData. cbv zeta.
    rewrite Zrange_empty by lia. reflexivity.
  - unfold generateBinomialData. cbv zeta. rewrite Hscale.
    change (Zrange 0 0) with [0%Z]. cbn [map].
    rewrite Hpdf, array_get_binomialProbs, binomialPMF_0_0 by lia.
    destruct useProportions.
    + unfold xOf, ofZ. cbn [div]. rewrite Reqb_true by reflexivity.
      unfold scale_inf. rewrite Reqb_true by reflexivity. reflexivity.
    + reflexivity.
Qed.

Lemma generateBinomialData_degenerate_witness :
  generateBinomialData (-3) (Num 0.5) true = [].
Proof.
  apply (proj1 (generateBinomialData_degenerate (-3) 0.5 (Num 0.5) true)). lia.
Defined.
